(** * Feature Hub: the Feature Service registry and the async SSR manager

    A shallow embedding of [packages/core/src/feature-service-registry.ts]
    and of the render loop exercised by
    [packages/async-ssr-manager/src/__tests__/index.test.ts].

    The registry is a class with two private collections, a console, and
    callbacks supplied by Feature Service providers.  It is embedded as a
    state-and-exception monad over a record holding the two collections,
    the console output, and a [World] on which the callbacks act. *)

From Stdlib Require Import NArith Ascii String.
From stdpp Require Import gmap strings list.

Local Open Scope string_scope.
Local Open Scope list_scope.

(** ** JavaScript objects and Maps *)

(** An object used as a dictionary: its own enumerable string-keyed
    properties, in the order in which they were created. *)
Definition JsObject (A : Type) : Type := list (string * A).

(** A [Map]: entries in insertion order. *)
Definition JsMap (A : Type) : Type := list (string * A).

Definition digit_of (c : ascii) : option N :=
  let n := N_of_ascii c in
  if ((48 <=? n) && (n <=? 57))%N then Some (n - 48)%N else None.

Fixpoint digits_value (acc : N) (s : string) : option N :=
  match s with
  | EmptyString => Some acc
  | String c s' =>
      match digit_of c with
      | Some d => digits_value (acc * 10 + d)%N s'
      | None => None
      end
  end.

(** A property key is an array index when it is the canonical decimal
    spelling of an integer below 2^32 - 1. *)
Definition array_index (k : string) : option N :=
  match k with
  | EmptyString => None
  | String "0" EmptyString => Some 0%N
  | String "0" _ => None
  | _ =>
      match digits_value 0 k with
      | Some n => if (n <? 2 ^ 32 - 1)%N then Some n else None
      | None => None
      end
  end.

Fixpoint insert_index (n : N) (k : string) (l : list (N * string))
  : list (N * string) :=
  match l with
  | [] => [(n, k)]
  | (m, k') :: l' =>
      if (n <? m)%N then (n, k) :: l else (m, k') :: insert_index n k l'
  end.

Definition index_keys (ks : list string) : list (N * string) :=
  foldr (fun k acc =>
           match array_index k with
           | Some n => insert_index n k acc
           | None => acc
           end) [] ks.

Definition string_keys (ks : list string) : list string :=
  filter (fun k => array_index k = None) ks.

(** The order of [[OwnPropertyKeys]]: array indices in ascending numeric
    order, then the other keys in creation order. *)
Definition own_property_keys (ks : list string) : list string :=
  (index_keys ks).*2 ++ string_keys ks.

Section JsObject.
Context {A : Type}.

(** [Object.keys(o)] *)
Definition Object_keys (o : JsObject A) : list string :=
  own_property_keys (o.*1).

(** [o[k]] for an own property; [None] is [undefined]. *)
Fixpoint obj_get (k : string) (o : JsObject A) : option A :=
  match o with
  | [] => None
  | (k', v) :: o' => if decide (k = k') then Some v else obj_get k o'
  end.

(** [o.hasOwnProperty(k)] *)
Definition hasOwnProperty (k : string) (o : JsObject A) : bool :=
  bool_decide (is_Some (obj_get k o)).

(** [o[k] = v]: an existing property keeps its place. *)
Fixpoint obj_set (k : string) (v : A) (o : JsObject A) : JsObject A :=
  match o with
  | [] => [(k, v)]
  | (k', v') :: o' =>
      if decide (k = k') then (k, v) :: o' else (k', v') :: obj_set k v o'
  end.

(** [{...target, ...source}] copies the own properties of [source], in
    key order, onto [target]. *)
Definition copyDataProperties (target source : JsObject A) : JsObject A :=
  foldl (fun t k =>
           match obj_get k source with
           | Some v => obj_set k v t
           | None => t
           end) target (Object_keys source).

Definition spread (a b : JsObject A) : JsObject A :=
  copyDataProperties (copyDataProperties [] a) b.

(** [Map.prototype.get], [has] and [set]. *)
Definition map_get (k : string) (m : JsMap A) : option A := obj_get k m.
Definition map_has (k : string) (m : JsMap A) : bool :=
  bool_decide (is_Some (obj_get k m)).
Definition map_set (k : string) (v : A) (m : JsMap A) : JsMap A :=
  obj_set k v m.
End JsObject.

(** ** Messages

    [internal/feature-service-registry-messages] is not among the sources;
    a message is represented by the call that builds it. *)
Inductive Message : Type :=
| featureServiceAlreadyRegistered (providerId consumerId : string)
| featureServiceVersionInvalid (providerId consumerId : string)
| featureServiceSuccessfullyRegistered (providerId consumerId : string)
| featureServicesAlreadyBound (consumerUid : string)
| featureServiceSuccessfullyBound (providerId consumerUid : string)
| featureServicesAlreadyUnbound (consumerUid : string)
| featureServiceSuccessfullyUnbound (providerId consumerUid : string)
| featureServiceCouldNotBeUnbound (providerId consumerUid : string)
| featureServiceDependencyVersionInvalid
    (optional : bool) (providerId consumerUid : string)
| featureServiceNotRegistered
    (optional : bool) (providerId consumerUid : string)
| featureServiceUnsupported
    (optional : bool) (providerId consumerUid requiredVersion : string)
    (supportedVersions : list string).

(** What a [throw] carries: [new Error(message)] built by the registry, or
    whatever a callback threw. *)
Inductive JsError (V : Type) : Type :=
| Error (message : Message)
| Thrown (v : V).
Arguments Error {V} message.
Arguments Thrown {V} v.

Inductive Outcome (V A : Type) : Type :=
| Ok (a : A)
| Throw (e : JsError V).
Arguments Ok {V A} a.
Arguments Throw {V A} e.

(** [FeatureServiceConsumerDependencies]: a range is a string or
    [undefined]. *)
Definition FeatureServiceConsumerDependencies : Type :=
  JsObject (option string).

Definition DependencyGraph : Type := JsMap FeatureServiceConsumerDependencies.

(** ** What the registry imports

    The [semver] package, [internal/create-uid] and
    [internal/toposort-dependencies] are imported by the registry and are
    not among the sources: the registry is verified for every
    implementation of them.  [World] is what provider callbacks can read
    and write, [Value] the type of opaque JavaScript values (Feature
    Service instances, configs, thrown values). *)
Class Imports : Type := {
  World : Type;
  Value : Type;
  SemVer : Type;
  coerce : string -> option SemVer;
  satisfies : option SemVer -> string -> bool;
  createUid : string -> option string -> string;
  toposortDependencies : DependencyGraph -> Outcome Value (list string)
}.

Section Registry.
Context `{Imports}.

(** *** Interfaces *)

Record FeatureServiceConsumerDefinition : Type := {
  id : string;
  dependencies : option FeatureServiceConsumerDependencies;
  optionalDependencies : option FeatureServiceConsumerDependencies
}.

Definition FeatureServices : Type := JsObject Value.

Record FeatureServiceEnvironment : Type := {
  config : option Value;
  env_featureServices : FeatureServices
}.

Record FeatureServiceBinding : Type := {
  featureService : Value;
  unbind : option (World -> Outcome Value () * World)
}.

Definition FeatureServiceBinder : Type :=
  string -> World -> Outcome Value FeatureServiceBinding * World.

Definition SharedFeatureService : Type :=
  JsObject (option FeatureServiceBinder).

Record FeatureServiceProviderDefinition : Type := {
  consumerDefinition :> FeatureServiceConsumerDefinition;
  create :
    FeatureServiceEnvironment ->
    World -> Outcome Value SharedFeatureService * World
}.

(** The [unbind] closure returned by [bindFeatureServices]: the constants
    it captures and the cell holding its [unbound] flag. *)
Record UnbindClosure : Type := {
  closure_consumerUid : string;
  closure_bindings : JsMap FeatureServiceBinding;
  closure_unbound : nat
}.

Record FeatureServicesBinding : Type := {
  featureServices : FeatureServices;
  unbindFeatureServices : UnbindClosure
}.

Definition ProviderDefinitionsById : Type :=
  JsMap FeatureServiceProviderDefinition.

(** *** Observable events: console output and callback invocations *)
Inductive Event : Type :=
| ConsoleInfo (m : Message)
| ConsoleWarn (m : Message)
| ConsoleError (m : Message) (e : JsError Value)
| CalledCreate (providerId : string)
| CalledBinder (providerId version consumerUid : string)
| CalledUnbind (providerId consumerUid : string).

(** *** The registry instance *)
Record FeatureServiceRegistry : Type := {
  sharedFeatureServices : gmap string SharedFeatureService;
  consumerUids : gset string;
  configs : option (gmap string Value);
  (** the cells of the [unbound] flags that hold [true], and the next
      cell to allocate *)
  unboundCells : gset nat;
  nextCell : nat;
  world : World;
  trace : list Event
}.

(** [new FeatureServiceRegistry(options)] *)
Definition newRegistry (configs : option (gmap string Value)) (w : World)
  : FeatureServiceRegistry :=
  {| sharedFeatureServices := ∅; consumerUids := ∅; configs := configs;
     unboundCells := ∅; nextCell := 0; world := w; trace := [] |}.

(** *** State and exceptions *)
Definition M (A : Type) : Type :=
  FeatureServiceRegistry -> Outcome Value A * FeatureServiceRegistry.

Definition ret {A} (a : A) : M A := fun s => (Ok a, s).

Definition bind {A B} (m : M A) (k : A -> M B) : M B :=
  fun s =>
    match m s with
    | (Ok a, s') => k a s'
    | (Throw e, s') => (Throw e, s')
    end.

Definition throw {A} (e : JsError Value) : M A := fun s => (Throw e, s).

Definition try_catch {A} (m : M A) (handler : JsError Value -> M A) : M A :=
  fun s =>
    match m s with
    | (Ok a, s') => (Ok a, s')
    | (Throw e, s') => handler e s'
    end.

Definition this : M FeatureServiceRegistry := fun s => (Ok s, s).

(** Field updates of the registry instance. *)
Definition add_event (e : Event) (s : FeatureServiceRegistry)
  : FeatureServiceRegistry :=
  {| sharedFeatureServices := sharedFeatureServices s;
     consumerUids := consumerUids s; configs := configs s;
     unboundCells := unboundCells s; nextCell := nextCell s;
     world := world s; trace := trace s ++ [e] |}.

Definition with_world (w : World) (s : FeatureServiceRegistry)
  : FeatureServiceRegistry :=
  {| sharedFeatureServices := sharedFeatureServices s;
     consumerUids := consumerUids s; configs := configs s;
     unboundCells := unboundCells s; nextCell := nextCell s;
     world := w; trace := trace s |}.

Definition with_sharedFeatureServices
    (m : gmap string SharedFeatureService) (s : FeatureServiceRegistry)
  : FeatureServiceRegistry :=
  {| sharedFeatureServices := m;
     consumerUids := consumerUids s; configs := configs s;
     unboundCells := unboundCells s; nextCell := nextCell s;
     world := world s; trace := trace s |}.

Definition with_consumerUids (uids : gset string) (s : FeatureServiceRegistry)
  : FeatureServiceRegistry :=
  {| sharedFeatureServices := sharedFeatureServices s;
     consumerUids := uids; configs := configs s;
     unboundCells := unboundCells s; nextCell := nextCell s;
     world := world s; trace := trace s |}.

Definition with_unboundCells (cells : gset nat) (next : nat)
    (s : FeatureServiceRegistry) : FeatureServiceRegistry :=
  {| sharedFeatureServices := sharedFeatureServices s;
     consumerUids := consumerUids s; configs := configs s;
     unboundCells := cells; nextCell := next;
     world := world s; trace := trace s |}.

Definition emit (e : Event) : M () := fun s => (Ok tt, add_event e s).

(** A callback runs on the world.  Callbacks do not call back into the
    registry: they cannot change its collections. *)
Definition external {A} (f : World -> Outcome Value A * World) : M A :=
  fun s => let '(r, w) := f (world s) in (r, with_world w s).

(** [this.sharedFeatureServices.set(providerId, sharedFeatureService)] *)
Definition set_sharedFeatureService
    (providerId : string) (shared : SharedFeatureService) : M () :=
  fun s =>
    (Ok tt,
     with_sharedFeatureServices
       (<[providerId := shared]> (sharedFeatureServices s)) s).

Definition set_consumerUids (uids : gset string) : M () :=
  fun s => (Ok tt, with_consumerUids uids s).

(** [let unbound = false]: a fresh cell, initialised. *)
Definition new_unbound_cell : M nat :=
  fun s =>
    (Ok (nextCell s),
     with_unboundCells (unboundCells s ∖ {[nextCell s]}) (S (nextCell s)) s).

(** [unbound = true] *)
Definition set_unbound (cell : nat) : M () :=
  fun s =>
    (Ok tt, with_unboundCells (unboundCells s ∪ {[cell]}) (nextCell s) s).
End Registry.

Notation "'let!' x ':=' m 'in' k" := (bind m (fun x => k))
  (at level 10, x pattern, m at level 100, k at level 200).
Notation "'do!' m 'in' k" := (bind m (fun _ => k))
  (at level 10, m at level 100, k at level 200).

Section Operations.
Context `{Imports}.

Definition console_info (m : Message) : M () := emit (ConsoleInfo m).
Definition console_warn (m : Message) : M () := emit (ConsoleWarn m).
Definition console_error (m : Message) (e : JsError Value) : M () :=
  emit (ConsoleError m e).

(** A string or [undefined] used as a condition: [undefined] and the
    empty string are falsy. *)
Definition truthy (s : option string) : option string :=
  match s with
  | Some s' => if decide (s' = "") then None else Some s'
  | None => None
  end.

Definition createDependencyGraph
    (definitions : list FeatureServiceProviderDefinition) : DependencyGraph :=
  foldl (fun dependencyGraph (definition : FeatureServiceProviderDefinition) =>
           map_set (id definition)
             (spread (default [] (dependencies definition))
                     (default [] (optionalDependencies definition)))
             dependencyGraph)
        [] definitions.

Definition createProviderDefinitionById
    (definitions : list FeatureServiceProviderDefinition)
  : ProviderDefinitionsById :=
  foldl (fun providerDefinitionsById (definition : FeatureServiceProviderDefinition) =>
           map_set (id definition) definition providerDefinitionsById)
        [] definitions.

(** [supportedVersions.find(...)] of [bindFeatureService] *)
Definition find_version (supportedVersions : list string)
    (requiredVersion : string) : option string :=
  List.find (fun supportedVersion =>
               let actualVersion := coerce supportedVersion in
               satisfies actualVersion requiredVersion)
            supportedVersions.

(** [version && sharedFeatureService[version]] *)
Definition find_binder (sharedFeatureService : SharedFeatureService)
    (version : option string) : option FeatureServiceBinder :=
  match truthy version with
  | Some version' => mjoin (obj_get version' sharedFeatureService)
  | None => None
  end.

(** The three places where [bindFeatureService] gives up: a notice and
    [undefined] for an optional dependency, an error otherwise. *)
Definition skip_or_throw (optional : bool) (message : Message)
  : M (option FeatureServiceBinding) :=
  if optional
  then do! console_info message in ret None
  else throw (Error message).

Definition bindFeatureService
    (providerId consumerUid : string) (requiredVersion : option string)
    (optional : bool) : M (option FeatureServiceBinding) :=
  match truthy requiredVersion with
  | None =>
      skip_or_throw optional
        (featureServiceDependencyVersionInvalid optional providerId consumerUid)
  | Some requiredVersion =>
      let! registry := this in
      match sharedFeatureServices registry !! providerId with
      | None =>
          skip_or_throw optional
            (featureServiceNotRegistered optional providerId consumerUid)
      | Some sharedFeatureService =>
          let supportedVersions := Object_keys sharedFeatureService in
          let version := find_version supportedVersions requiredVersion in
          match find_binder sharedFeatureService version with
          | None =>
              skip_or_throw optional
                (featureServiceUnsupported optional providerId consumerUid
                   requiredVersion supportedVersions)
          | Some bindFeatureService =>
              do! emit (CalledBinder providerId (default "" version) consumerUid) in
              let! binding := external (bindFeatureService consumerUid) in
              ret (Some binding)
          end
      end
  end.

(** The [for] loop of [bindFeatureServices], with the [bindings] map
    and the [featureServices] object it fills. *)
Fixpoint bindAll
    (dependencies allDependencies : FeatureServiceConsumerDependencies)
    (consumerUid : string) (providerIds : list string)
    (bindings : JsMap FeatureServiceBinding) (featureServices : FeatureServices)
  : M (JsMap FeatureServiceBinding * FeatureServices) :=
  match providerIds with
  | [] => ret (bindings, featureServices)
  | providerId :: rest =>
      let! binding :=
        bindFeatureService providerId consumerUid
          (mjoin (obj_get providerId allDependencies))
          (negb (hasOwnProperty providerId dependencies)) in
      match binding with
      | None =>
          bindAll dependencies allDependencies consumerUid rest
            bindings featureServices
      | Some binding =>
          do! console_info
                (featureServiceSuccessfullyBound providerId consumerUid) in
          bindAll dependencies allDependencies consumerUid rest
            (map_set providerId binding bindings)
            (obj_set providerId (featureService binding) featureServices)
      end
  end.

Definition bindFeatureServices
    (consumerDefinition : FeatureServiceConsumerDefinition)
    (consumerIdSpecifier : option string) : M FeatureServicesBinding :=
  let consumerId := id consumerDefinition in
  let dependencies := default [] (dependencies consumerDefinition) in
  let optionalDependencies :=
    default [] (optionalDependencies consumerDefinition) in
  let consumerUid := createUid consumerId consumerIdSpecifier in
  let! registry := this in
  if decide (consumerUid ∈ consumerUids registry)
  then throw (Error (featureServicesAlreadyBound consumerUid))
  else
    let allDependencies := spread optionalDependencies dependencies in
    let! (bindings, featureServices) :=
      bindAll dependencies allDependencies consumerUid
        (Object_keys allDependencies) [] [] in
    let! registry := this in
    do! set_consumerUids ({[consumerUid]} ∪ consumerUids registry) in
    let! unbound := new_unbound_cell in
    ret {| featureServices := featureServices;
           unbindFeatureServices :=
             {| closure_consumerUid := consumerUid;
                closure_bindings := bindings;
                closure_unbound := unbound |} |}.

(** The loop of the [unbind] closure over [bindings.entries()]. *)
Fixpoint unbindAll (consumerUid : string)
    (entries : list (string * FeatureServiceBinding)) : M () :=
  match entries with
  | [] => ret tt
  | (providerId, binding) :: rest =>
      do! try_catch
            (do! match unbind binding with
                 | Some callback =>
                     do! emit (CalledUnbind providerId consumerUid) in
                     external callback
                 | None => ret tt
                 end in
             console_info
               (featureServiceSuccessfullyUnbound providerId consumerUid))
            (fun error =>
               console_error
                 (featureServiceCouldNotBeUnbound providerId consumerUid)
                 error) in
      unbindAll consumerUid rest
  end.

(** Calling the [unbind] function of a [FeatureServicesBinding]. *)
Definition call_unbind (closure : UnbindClosure) : M () :=
  let consumerUid := closure_consumerUid closure in
  let! registry := this in
  if decide (closure_unbound closure ∈ unboundCells registry)
  then throw (Error (featureServicesAlreadyUnbound consumerUid))
  else
    do! set_unbound (closure_unbound closure) in
    let! registry := this in
    do! set_consumerUids (consumerUids registry ∖ {[consumerUid]}) in
    unbindAll consumerUid (closure_bindings closure).

(** The check of the exposed versions in [registerFeatureServices]. *)
Fixpoint checkVersions (providerId consumerId : string)
    (versions : list string) : M () :=
  match versions with
  | [] => ret tt
  | version :: rest =>
      match coerce version with
      | None =>
          throw (Error (featureServiceVersionInvalid providerId consumerId))
      | Some _ => checkVersions providerId consumerId rest
      end
  end.

(** The body of the [for] loop of [registerFeatureServices]. *)
Definition registerFeatureService
    (providerDefinitionsById : ProviderDefinitionsById)
    (consumerId providerId : string) : M () :=
  let providerDefinition := map_get providerId providerDefinitionsById in
  let! registry := this in
  if decide (is_Some (sharedFeatureServices registry !! providerId))
  then
    if map_has providerId providerDefinitionsById
    then console_warn (featureServiceAlreadyRegistered providerId consumerId)
    else ret tt
  else
    match providerDefinition with
    | Some providerDefinition =>
        let config := configs registry ≫= (fun configs => configs !! providerId) in
        let! binding := bindFeatureServices providerDefinition None in
        do! emit (CalledCreate providerId) in
        let! sharedFeatureService :=
          external (create providerDefinition
                      {| config := config;
                         env_featureServices := featureServices binding |}) in
        do! checkVersions providerId consumerId
              (Object_keys sharedFeatureService) in
        do! set_sharedFeatureService providerId sharedFeatureService in
        console_info
          (featureServiceSuccessfullyRegistered providerId consumerId)
    | None => ret tt
    end.

Fixpoint registerAll (providerDefinitionsById : ProviderDefinitionsById)
    (consumerId : string) (providerIds : list string) : M () :=
  match providerIds with
  | [] => ret tt
  | providerId :: rest =>
      do! registerFeatureService providerDefinitionsById consumerId providerId in
      registerAll providerDefinitionsById consumerId rest
  end.

Definition registerFeatureServices
    (providerDefinitions : list FeatureServiceProviderDefinition)
    (consumerId : string) : M () :=
  let providerDefinitionsById :=
    createProviderDefinitionById providerDefinitions in
  let dependencyGraph := createDependencyGraph providerDefinitions in
  match toposortDependencies dependencyGraph with
  | Throw e => throw e
  | Ok providerIds => registerAll providerDefinitionsById consumerId providerIds
  end.
End Operations.

(** ** Callers of the registry

    A caller issues calls one after the other and keeps the
    [FeatureServicesBinding]s it was given; it can call [unbind] only on
    those.  An exception is caught by the caller, who carries on. *)
Section Caller.
Context `{Imports}.

Inductive ApiCall : Type :=
| Register (providerDefinitions : list FeatureServiceProviderDefinition)
           (consumerId : string)
| Bind (consumerDefinition : FeatureServiceConsumerDefinition)
       (consumerIdSpecifier : option string)
| Unbind (n : nat).

Record Caller : Type := {
  registry : FeatureServiceRegistry;
  held : list FeatureServicesBinding
}.

Definition api_call (c : ApiCall) (caller : Caller)
  : Outcome Value () * Caller :=
  match c with
  | Register providerDefinitions consumerId =>
      let '(r, s) :=
        registerFeatureServices providerDefinitions consumerId
          (registry caller) in
      (r, {| registry := s; held := held caller |})
  | Bind consumerDefinition consumerIdSpecifier =>
      match bindFeatureServices consumerDefinition consumerIdSpecifier
              (registry caller) with
      | (Ok binding, s) =>
          (Ok tt, {| registry := s; held := held caller ++ [binding] |})
      | (Throw e, s) => (Throw e, {| registry := s; held := held caller |})
      end
  | Unbind n =>
      match held caller !! n with
      | Some binding =>
          let '(r, s) :=
            call_unbind (unbindFeatureServices binding) (registry caller) in
          (r, {| registry := s; held := held caller |})
      | None => (Ok tt, caller)
      end
  end.

Definition api_calls (calls : list ApiCall) (caller : Caller) : Caller :=
  foldl (fun caller c => (api_call c caller).2) caller calls.

Definition newCaller (configs : option (gmap string Value)) (w : World)
  : Caller :=
  {| registry := newRegistry configs w; held := [] |}.
End Caller.

(** ** Vocabulary of the properties *)
Section Vocabulary.
Context `{Imports}.

(** The three ways in which a requested Feature Service cannot be
    resolved against the registered providers, each with the message
    the registry builds for it (given whether the dependency is
    optional, and the consumer uid). *)
Inductive Unresolved (providers : gmap string SharedFeatureService)
    (providerId : string) (requestedRange : option string)
  : (bool -> string -> Message) -> Prop :=
| NoRangeDeclared :
    truthy requestedRange = None ->
    Unresolved providers providerId requestedRange
      (fun optional consumerUid =>
         featureServiceDependencyVersionInvalid optional providerId consumerUid)
| NoProviderRegistered range :
    truthy requestedRange = Some range ->
    providers !! providerId = None ->
    Unresolved providers providerId requestedRange
      (fun optional consumerUid =>
         featureServiceNotRegistered optional providerId consumerUid)
| NoVersionSatisfies range sharedFeatureService :
    truthy requestedRange = Some range ->
    providers !! providerId = Some sharedFeatureService ->
    Forall (fun version => satisfies (coerce version) range = false)
           (Object_keys sharedFeatureService) ->
    Unresolved providers providerId requestedRange
      (fun optional consumerUid =>
         featureServiceUnsupported optional providerId consumerUid range
           (Object_keys sharedFeatureService)).

(** The registry's own collections; callbacks and the console are not
    part of them. *)
Definition same_collections (s s' : FeatureServiceRegistry) : Prop :=
  sharedFeatureServices s' = sharedFeatureServices s
  /\ consumerUids s' = consumerUids s
  /\ configs s' = configs s
  /\ unboundCells s' = unboundCells s
  /\ nextCell s' = nextCell s.

(** From [s] to [s'] only callbacks ran and the console was written to,
    with events among [allowed]. *)
Definition only_events (allowed : Event -> bool)
    (s s' : FeatureServiceRegistry) : Prop :=
  same_collections s s'
  /\ exists events, trace s' = trace s ++ events /\ forallb allowed events = true.

Definition is_CalledUnbind (e : Event) : bool :=
  match e with CalledUnbind _ _ => true | _ => false end.

Definition is_CalledCreate (providerId : string) (e : Event) : bool :=
  match e with
  | CalledCreate providerId' => bool_decide (providerId' = providerId)
  | _ => false
  end.

(** The teardown of [unbind], in the words of the specification: for
    every recorded binding, in binding order, its optional [unbind]
    callback is invoked; an exception is logged for that binding, a
    success is notified, and in both cases the next binding follows.
    Returns the world and the events produced. *)
Fixpoint teardown (consumerUid : string)
    (bindings : list (string * FeatureServiceBinding)) (w : World)
  : World * list Event :=
  match bindings with
  | [] => (w, [])
  | (providerId, binding) :: rest =>
      let unbound :=
        ConsoleInfo (featureServiceSuccessfullyUnbound providerId consumerUid) in
      let '(w1, events) :=
        match unbind binding with
        | None => (w, [unbound])
        | Some callback =>
            match callback w with
            | (Ok _, w1) =>
                (w1, [CalledUnbind providerId consumerUid; unbound])
            | (Throw e, w1) =>
                (w1, [CalledUnbind providerId consumerUid;
                      ConsoleError
                        (featureServiceCouldNotBeUnbound providerId consumerUid)
                        e])
            end
        end in
      let '(w2, events') := teardown consumerUid rest w1 in
      (w2, events ++ events')
  end.

(** The teardown calls owed to a consumer: one per binding that has an
    [unbind] callback, in binding order. *)
Definition teardown_calls (consumerUid : string)
    (bindings : list (string * FeatureServiceBinding)) : list Event :=
  omap (fun entry =>
          match unbind entry.2 with
          | Some _ => Some (CalledUnbind entry.1 consumerUid)
          | None => None
          end) bindings.

(** What a registration may change: providers are added, never
    replaced; consumer uids are added; the [unbound] flags of existing
    closures are left alone; every provider added has its own uid
    ([createUid providerId undefined]) newly bound; no teardown runs, and
    no [create] is called for a provider that was already registered. *)
Definition registration_step (s s' : FeatureServiceRegistry) : Prop :=
  (forall providerId shared,
     sharedFeatureServices s !! providerId = Some shared ->
     sharedFeatureServices s' !! providerId = Some shared)
  /\ consumerUids s ⊆ consumerUids s'
  /\ configs s' = configs s
  /\ nextCell s <= nextCell s'
  /\ (forall cell, cell < nextCell s ->
        cell ∈ unboundCells s' <-> cell ∈ unboundCells s)
  /\ (forall providerId,
        is_Some (sharedFeatureServices s' !! providerId) ->
        sharedFeatureServices s !! providerId = None ->
        createUid providerId None ∈ consumerUids s'
        /\ createUid providerId None ∉ consumerUids s)
  /\ exists events,
       trace s' = trace s ++ events
       /\ Forall (fun e =>
                    is_CalledUnbind e = false
                    /\ forall providerId,
                         is_Some (sharedFeatureServices s !! providerId) ->
                         is_CalledCreate providerId e = false) events.

(** A [ProviderDefinitionsById] holds each definition under its own id. *)
Definition keyed_by_id (byId : ProviderDefinitionsById) : Prop :=
  forall providerId definition,
    map_get providerId byId = Some definition -> id definition = providerId.

Definition with_trace (t : list Event) (s : FeatureServiceRegistry)
  : FeatureServiceRegistry :=
  {| sharedFeatureServices := sharedFeatureServices s;
     consumerUids := consumerUids s; configs := configs s;
     unboundCells := unboundCells s; nextCell := nextCell s;
     world := world s; trace := t |}.

(** The events of binding: notices and binder calls. *)
Definition binding_event (e : Event) : bool :=
  match e with
  | ConsoleInfo _ | CalledBinder _ _ _ => true
  | _ => false
  end.

End Vocabulary.

(** ** What holds of every caller *)
Section CallerInvariant.
Context `{Imports}.

Definition uid_of (binding : FeatureServicesBinding) : string :=
  closure_consumerUid (unbindFeatureServices binding).

(** The [unbound] flag of the closure of [binding] holds [true]. *)
Definition unbound_in (s : FeatureServiceRegistry)
    (binding : FeatureServicesBinding) : Prop :=
  closure_unbound (unbindFeatureServices binding) ∈ unboundCells s.

(** The flags of the closures held by the caller are allocated; a held
    binding that was not unbound has its uid in the active set, and no
    other such binding has the same uid; the uid of every registered
    provider is in the active set, and no held binding could remove it. *)
Record caller_invariant (caller : Caller) : Prop := {
  held_allocated :
    forall binding, binding ∈ held caller ->
      closure_unbound (unbindFeatureServices binding) < nextCell (registry caller);
  held_active :
    forall binding, binding ∈ held caller ->
      ~ unbound_in (registry caller) binding ->
      uid_of binding ∈ consumerUids (registry caller);
  held_distinct :
    forall i j binding binding',
      held caller !! i = Some binding -> held caller !! j = Some binding' ->
      i <> j ->
      ~ unbound_in (registry caller) binding ->
      ~ unbound_in (registry caller) binding' ->
      uid_of binding <> uid_of binding';
  providers_bound :
    forall providerId,
      is_Some (sharedFeatureServices (registry caller) !! providerId) ->
      createUid providerId None ∈ consumerUids (registry caller)
      /\ forall binding, binding ∈ held caller ->
           uid_of binding = createUid providerId None ->
           unbound_in (registry caller) binding
}.
End CallerInvariant.

(** ** A model of the [semver] package

    Used to run the registry on concrete versions and ranges.  It covers
    [coerce] and, for [satisfies], ranges made of [||]-separated sets of
    space-separated comparators [^], [~], [>=], [<=], [>], [<], [=] over
    full or partial versions ([1], [1.2], [1.x], [*]).  Hyphen ranges,
    prerelease tags and build metadata are not covered: a range using
    them is treated as invalid, which [satisfies] answers with [false]. *)
Module Semver.

Record Version : Type := { major : N; minor : N; patch : N }.

Definition ltb (a b : Version) : bool :=
  ((major a <? major b)
   || ((major a =? major b)
       && ((minor a <? minor b)
           || ((minor a =? minor b) && (patch a <? patch b)))))%N.

Definition MAX_SAFE_INTEGER : N := 9007199254740991.

Definition is_digit (c : ascii) : bool :=
  bool_decide (is_Some (digit_of c)).

Fixpoint span_digits (s : list ascii) : list ascii * list ascii :=
  match s with
  | c :: s' =>
      if is_digit c
      then let '(ds, r) := span_digits s' in (c :: ds, r)
      else ([], s)
  | [] => ([], [])
  end.

Definition number (ds : list ascii) : N :=
  foldl (fun acc c => (acc * 10 + default 0 (digit_of c))%N) 0%N ds.

(** [(\d{1,16})] *)
Definition component (s : list ascii) : option (N * list ascii) :=
  let '(ds, r) := span_digits s in
  if bool_decide (1 <= length ds <= 16) then Some (number ds, r) else None.

(** [(?:\.(\d{1,16}))?] *)
Definition dot_component (s : list ascii) : option N * list ascii :=
  match s with
  | "."%char :: s' =>
      match component s' with
      | Some (n, r) => (Some n, r)
      | None => (None, s)
      end
  | _ => (None, s)
  end.

Definition make (ma mi pa : N) : option Version :=
  if bool_decide (ma <= MAX_SAFE_INTEGER /\ mi <= MAX_SAFE_INTEGER
                  /\ pa <= MAX_SAFE_INTEGER)%N
  then Some {| major := ma; minor := mi; patch := pa |}
  else None.

(** The leftmost match of the coercion pattern. *)
Fixpoint coerce_from (after_digit : bool) (s : list ascii) : option Version :=
  match s with
  | [] => None
  | c :: s' =>
      if is_digit c
      then
        match (if after_digit then None else component s) with
        | Some (ma, r1) =>
            let '(mi, r2) := dot_component r1 in
            let '(pa, _) :=
              match mi with
              | Some _ => dot_component r2
              | None => (None, r2)
              end in
            make ma (default 0%N mi) (default 0%N pa)
        | None => coerce_from true s'
        end
      else coerce_from false s'
  end.

Definition coerce (version : string) : option Version :=
  coerce_from false (list_ascii_of_string version).

(** *** Ranges *)

Inductive Operator : Type := Caret | Tilde | GE | LE | GT | LT | EQ.

Inductive Bound : Type :=
| AtLeast (v : Version)
| Below (v : Version)
| Nothing.

Definition V (ma mi pa : N) : Version :=
  {| major := ma; minor := mi; patch := pa |}.

(** A comparator over a partial version, as bounds. *)
Definition desugar (op : Operator) (ma mi pa : option N) : list Bound :=
  match ma with
  | None =>
      match op with
      | GT | LT => [Nothing]
      | _ => []
      end
  | Some M =>
      match mi with
      | None =>
          match op with
          | Caret | Tilde | EQ => [AtLeast (V M 0 0); Below (V (M + 1) 0 0)]
          | GE => [AtLeast (V M 0 0)]
          | GT => [AtLeast (V (M + 1) 0 0)]
          | LT => [Below (V M 0 0)]
          | LE => [Below (V (M + 1) 0 0)]
          end
      | Some m =>
          match pa with
          | None =>
              match op with
              | Caret =>
                  if (M =? 0)%N
                  then [AtLeast (V M m 0); Below (V M (m + 1) 0)]
                  else [AtLeast (V M m 0); Below (V (M + 1) 0 0)]
              | Tilde | EQ => [AtLeast (V M m 0); Below (V M (m + 1) 0)]
              | GE => [AtLeast (V M m 0)]
              | GT => [AtLeast (V M (m + 1) 0)]
              | LT => [Below (V M m 0)]
              | LE => [Below (V M (m + 1) 0)]
              end
          | Some p =>
              match op with
              | Caret =>
                  if negb (M =? 0)%N
                  then [AtLeast (V M m p); Below (V (M + 1) 0 0)]
                  else if negb (m =? 0)%N
                  then [AtLeast (V M m p); Below (V M (m + 1) 0)]
                  else [AtLeast (V M m p); Below (V M m (p + 1))]
              | Tilde => [AtLeast (V M m p); Below (V M (m + 1) 0)]
              | EQ => [AtLeast (V M m p); Below (V M m (p + 1))]
              | GE => [AtLeast (V M m p)]
              | GT => [AtLeast (V M m (p + 1))]
              | LT => [Below (V M m p)]
              | LE => [Below (V M m (p + 1))]
              end
          end
      end
  end.

Definition test (v : Version) (b : Bound) : bool :=
  match b with
  | AtLeast lo => negb (ltb v lo)
  | Below hi => ltb v hi
  | Nothing => false
  end.

(** [||] and blanks *)
Fixpoint split_alternatives (cur : list ascii) (s : list ascii)
  : list (list ascii) :=
  match s with
  | [] => [reverse cur]
  | c :: s' =>
      match c, s' with
      | "|"%char, "|"%char :: s'' => reverse cur :: split_alternatives [] s''
      | _, _ => split_alternatives (c :: cur) s'
      end
  end.

Fixpoint split_blanks (cur : list ascii) (s : list ascii)
  : list (list ascii) :=
  match s with
  | [] => [reverse cur]
  | c :: s' =>
      if decide (c = " "%char)
      then reverse cur :: split_blanks [] s'
      else split_blanks (c :: cur) s'
  end.

Definition operator (s : list ascii) : Operator * list ascii :=
  match s with
  | "^"%char :: r => (Caret, r)
  | "~"%char :: r => (Tilde, r)
  | ">"%char :: "="%char :: r => (GE, r)
  | "<"%char :: "="%char :: r => (LE, r)
  | ">"%char :: r => (GT, r)
  | "<"%char :: r => (LT, r)
  | "="%char :: r => (EQ, r)
  | _ => (EQ, s)
  end.

(** One of [x], [X], [*] or a number; [None] is a wildcard. *)
Definition xr (s : list ascii) : option (option N * list ascii) :=
  match s with
  | "x"%char :: r | "X"%char :: r | "*"%char :: r => Some (None, r)
  | _ =>
      let '(ds, r) := span_digits s in
      match ds with
      | [] => None
      | "0"%char :: _ :: _ => None
      | _ => Some (Some (number ds), r)
      end
  end.

Definition dot_xr (s : list ascii) : option (option N * list ascii) :=
  match s with
  | [] => Some (None, [])
  | "."%char :: r => xr r
  | _ => None
  end.

Definition comparator (token : list ascii) : option (list Bound) :=
  let '(op, r) := operator token in
  let r := match r with "v"%char :: r' => r' | _ => r end in
  '(ma, r1) ← xr r;
  '(mi, r2) ← dot_xr r1;
  '(pa, r3) ← dot_xr r2;
  match r3 with
  | [] =>
      let mi := match ma with Some _ => mi | None => None end in
      let pa := match mi with Some _ => pa | None => None end in
      Some (desugar op ma mi pa)
  | _ => None
  end.

Definition comparator_set (s : list ascii) : option (list Bound) :=
  mjoin <$> mapM comparator (filter (fun t => t <> []) (split_blanks [] s)).

Definition parse_range (range : string) : option (list (list Bound)) :=
  mapM comparator_set (split_alternatives [] (list_ascii_of_string range)).

Definition satisfies (version : option Version) (range : string) : bool :=
  match version, parse_range range with
  | Some v, Some alternatives =>
      existsb (fun bounds => forallb (test v) bounds) alternatives
  | _, _ => false
  end.
End Semver.

(** ** Models of the two internal helpers, for concrete runs *)

(** Modelled from the spec: [internal/toposort-dependencies] is not among
    the sources.  The order contains every node of the graph once, every
    node after those of its dependencies that are nodes of the graph;
    edges to other identifiers are ignored; a cycle is an error. *)
Module Toposort.
Definition ready (graph : DependencyGraph) (sorted : list string)
    (node : string * FeatureServiceConsumerDependencies) : bool :=
  forallb (fun dependency =>
             negb (map_has dependency graph)
             || bool_decide (dependency ∈ sorted))
          (Object_keys node.2).

Fixpoint sort (fuel : nat) (graph pending : DependencyGraph)
    (sorted : list string) : option (list string) :=
  match pending, fuel with
  | [], _ => Some sorted
  | _, 0 => None
  | _, S fuel' =>
      match List.find (ready graph sorted) pending with
      | Some (node, _) =>
          sort fuel' graph (filter (fun entry => entry.1 <> node) pending)
            (sorted ++ [node])
      | None => None
      end
  end.

Definition toposortDependencies {V : Type} (cycle : V)
    (dependencyGraph : DependencyGraph) : Outcome V (list string) :=
  match sort (length dependencyGraph) dependencyGraph dependencyGraph [] with
  | Some providerIds => Ok providerIds
  | None => Throw (Thrown cycle)
  end.
End Toposort.

(** Modelled from the spec: [internal/create-uid] is not among the
    sources.  The uid is derived from the id and the optional specifier. *)
Definition createUid_model (id : string) (specifier : option string) : string :=
  match truthy specifier with
  | Some specifier => id +:+ ":" +:+ specifier
  | None => id
  end.

(** The imports used for concrete runs: callbacks write lines to a log,
    values are strings. *)
Definition node : Imports :=
  {| World := list string;
     Value := string;
     SemVer := Semver.Version;
     coerce := Semver.coerce;
     satisfies := Semver.satisfies;
     createUid := createUid_model;
     toposortDependencies := Toposort.toposortDependencies "Cyclic dependency" |}.

(** ** Concrete providers and consumers *)
Module Samples.
#[local] Existing Instance node.

(** A binder whose Feature Service and teardown leave a line in the
    log. *)
Definition binderOf (label : string) : FeatureServiceBinder :=
  fun consumerUid w =>
    (Ok {| featureService := label;
           unbind := Some (fun w => (Ok tt, w ++ ["unbind " +:+ label])) |},
     w ++ ["bind " +:+ label +:+ " to " +:+ consumerUid]).

Definition provider (providerId : string)
    (deps : option FeatureServiceConsumerDependencies)
    (shared : SharedFeatureService) : FeatureServiceProviderDefinition :=
  {| consumerDefinition :=
       {| id := providerId; dependencies := deps;
          optionalDependencies := None |};
     create := fun env w => (Ok shared, w ++ ["create " +:+ providerId]) |}.

Definition consumer (consumerId : string)
    (deps optionalDeps : option FeatureServiceConsumerDependencies)
  : FeatureServiceConsumerDefinition :=
  {| id := consumerId; dependencies := deps;
     optionalDependencies := optionalDeps |}.

Definition v1_then_v2 : SharedFeatureService :=
  [("1.0.0", Some (binderOf "v1")); ("2.0.0", Some (binderOf "v2"))].

(** Declared as [{'2': ..., '1': ...}]. *)
Definition two_then_one : SharedFeatureService :=
  [("2", Some (binderOf "two")); ("1", Some (binderOf "one"))].

(** Declared as [{'1.5.0': ..., '2': ...}]. *)
Definition one_five_then_two : SharedFeatureService :=
  [("1.5.0", Some (binderOf "one-five")); ("2", Some (binderOf "two"))].

Definition registryWith (providerId : string) (shared : SharedFeatureService)
  : FeatureServiceRegistry :=
  with_sharedFeatureServices {[ providerId := shared ]} (newRegistry None []).
Definition good : FeatureServiceProviderDefinition :=
  provider "good" None v1_then_v2.

(** Depends on ["good"] and exposes a key that is not a version. *)
Definition bad : FeatureServiceProviderDefinition :=
  provider "bad" (Some [("good", Some "^1.0")])
    [("1.0.0", Some (binderOf "bad1")); ("latest", Some (binderOf "bad2"))].

(** A second definition for the id ["good"]. *)
Definition good_again : FeatureServiceProviderDefinition :=
  provider "good" None two_then_one.

(** The closure of a consumer holding two bindings, the first of which
    fails to unbind. *)
Definition two_bindings : UnbindClosure :=
  {| closure_consumerUid := "app";
     closure_bindings :=
       [("failing",
         {| featureService := "failing";
            unbind :=
              Some (fun w => (Throw (Thrown "teardown of failing"),
                              w ++ ["unbind failing"])) |});
        ("good",
         {| featureService := "v1";
            unbind := Some (fun w => (Ok tt, w ++ ["unbind v1"])) |})];
     closure_unbound := 0 |}.

Definition empty : FeatureServiceRegistry := newRegistry None [].
End Samples.


(** ** The async SSR manager *)

(** Modelled from the spec: the implementation of
    [asyncSsrManagerDefinition] ([packages/async-ssr-manager/src/index.ts])
    is not among the sources, only its tests are.  The definitions follow
    section 4.5 of the specification: a render pass invokes the render
    function, during which [rerenderAfter] may be called any number of
    times; with no pending promise the operation is done; otherwise all
    pending promises are awaited and a new pass follows; one timeout
    bounds the whole operation.  Time is counted in milliseconds from the
    call of [renderUntilCompleted]; a render pass itself takes none, as
    under the fake timers of the tests. *)
Module AsyncSsrManager.
Section Orchestrator.
Context {State Err : Type}.

(** A promise handed to [rerenderAfter], by what becomes of it; the
    delay counts from the pass in which it was handed over, and an
    already resolved promise has delay [0]. *)
Inductive Promise : Type :=
| Fulfils (after : nat)
| Rejects (after : nat) (reason : Err)
| Pending.

(** What one invocation of the render function does. *)
Inductive Rendered : Type :=
| Returns (html : string)
| Throws (error : Err).

Record Pass : Type := {
  rendered : Rendered;
  rerenderAfter : list Promise
}.

(** The render function, with the state it closes over. *)
Definition RenderFn : Type := State -> Pass * State.

Inductive Failure : Type :=
| RenderError (error : Err)
| PromiseRejection (reason : Err)
| Timeout (ms : nat).

Inductive Completion : Type :=
| Done (html : string)
| Failed (failure : Failure)
(** no timeout and a promise that never settles *)
| Unsettled
(** the passes allowed to the model are used up *)
| MorePasses.

Record Run : Type := {
  completion : Completion;
  invocations : nat;
  elapsed : nat
}.

(** Modelled from the spec: awaiting every promise of the pending set;
    the first rejection fails the wait at once. *)
Inductive Settled : Type :=
| AllFulfilled (after : nat)
| OneRejected (after : nat) (reason : Err)
| NeverSettled.

Fixpoint settle (pending : list Promise) : Settled :=
  match pending with
  | [] => AllFulfilled 0
  | promise :: rest =>
      match promise, settle rest with
      | Rejects t reason, OneRejected t' reason' =>
          if (t' <? t)%nat then OneRejected t' reason' else OneRejected t reason
      | Rejects t reason, _ => OneRejected t reason
      | _, OneRejected t' reason' => OneRejected t' reason'
      | Pending, _ => NeverSettled
      | Fulfils _, NeverSettled => NeverSettled
      | Fulfils t, AllFulfilled t' => AllFulfilled (t `max` t')
      end
  end.

(** Modelled from the spec: the timer has fired before time [t]. *)
Definition expired (timeout : option nat) (t : nat) : bool :=
  match timeout with
  | Some limit => (limit <? t)%nat
  | None => false
  end.

Definition timed_out (limit count : nat) : Run :=
  {| completion := Failed (Timeout limit); invocations := count;
     elapsed := limit |}.

(** Modelled from the spec: the passes, from time [now], after [count]
    invocations of the render function. *)
Fixpoint renderingLoop (fuel : nat) (timeout : option nat) (render : RenderFn)
    (st : State) (now count : nat) : Run :=
  match fuel with
  | 0 => {| completion := MorePasses; invocations := count; elapsed := now |}
  | S fuel' =>
      let '(pass, st') := render st in
      match rendered pass with
      | Throws error =>
          {| completion := Failed (RenderError error);
             invocations := S count; elapsed := now |}
      | Returns html =>
          match rerenderAfter pass with
          | [] =>
              {| completion := Done html; invocations := S count;
                 elapsed := now |}
          | pending =>
              match settle pending, timeout with
              | NeverSettled, Some limit => timed_out limit (S count)
              | NeverSettled, None =>
                  {| completion := Unsettled; invocations := S count;
                     elapsed := now |}
              | OneRejected after reason, _ =>
                  if expired timeout (now + after)
                  then timed_out (default 0 timeout) (S count)
                  else {| completion := Failed (PromiseRejection reason);
                          invocations := S count; elapsed := now + after |}
              | AllFulfilled after, _ =>
                  if expired timeout (now + after)
                  then timed_out (default 0 timeout) (S count)
                  else renderingLoop fuel' timeout render st'
                         (now + after) (S count)
              end
          end
      end
  end.

(** Modelled from the spec: only a positive timeout is a timeout. *)
Definition configured (timeout : option nat) : option nat :=
  match timeout with
  | Some limit => if (0 <? limit)%nat then Some limit else None
  | None => None
  end.

(** Modelled from the spec: [renderUntilCompleted(render)], allowed at
    most [fuel] passes. *)
Definition renderUntilCompleted (fuel : nat) (timeout : option nat)
    (render : RenderFn) (st : State) : Run :=
  renderingLoop fuel (configured timeout) render st 0 0.
End Orchestrator.

Arguments Promise : clear implicits.
Arguments Rendered : clear implicits.
Arguments Pass : clear implicits.
Arguments RenderFn : clear implicits.
Arguments Failure : clear implicits.
Arguments Completion : clear implicits.
Arguments Run : clear implicits.
Arguments Settled : clear implicits.

(** The render functions of the tests: a consumer asks for a rerender
    after a resolved promise in its first render only. *)
Definition consumerRender (firstRender : bool) : list (Promise string) * bool :=
  if firstRender then ([Fulfils 0], false) else ([], false).

(** The integrator alone. *)
Definition mockRender : RenderFn unit string :=
  fun st => ({| rendered := Returns "testHtml"; rerenderAfter := [] |}, st).

(** The integrator and one consumer. *)
Definition mockRender1 : RenderFn bool string :=
  fun firstRender =>
    let '(promises, firstRender') := consumerRender firstRender in
    ({| rendered := Returns "testHtml"; rerenderAfter := promises |},
     firstRender').

(** The integrator and two consumers. *)
Definition mockRender2 : RenderFn (bool * bool) string :=
  fun st =>
    let '(promises1, first1) := consumerRender st.1 in
    let '(promises2, first2) := consumerRender st.2 in
    ({| rendered := Returns "testHtml";
        rerenderAfter := promises1 ++ promises2 |},
     (first1, first2)).

(** A render function that hands over a promise that never settles. *)
Definition mockRenderPending : RenderFn unit string :=
  fun st =>
    ({| rendered := Returns "testHtml"; rerenderAfter := [Pending] |}, st).

(** Two passes that each wait three milliseconds, then a last one. *)
Definition mockRenderSlow : RenderFn nat string :=
  fun pass =>
    ({| rendered := Returns "testHtml";
        rerenderAfter := if (pass <? 2)%nat then [Fulfils 3] else [] |},
     S pass).
End AsyncSsrManager.

(** ** Further vocabulary *)
Section FurtherVocabulary.
Context `{Imports}.

(** Every version key of every registered provider can be coerced. *)
Definition versions_coercible (s : FeatureServiceRegistry) : Prop :=
  forall providerId shared,
    sharedFeatureServices s !! providerId = Some shared ->
    Forall (fun version => is_Some (coerce version)) (Object_keys shared).

(** A binder call made for the consumer [consumerUid]: the version is a
    key of the registered provider and satisfies the range requested for
    that provider. *)
Definition satisfying_call (providers : gmap string SharedFeatureService)
    (requested : string -> option string) (consumerUid : string)
    (e : Event) : Prop :=
  match e with
  | CalledBinder providerId version uid =>
      uid = consumerUid
      /\ exists range shared,
           truthy (requested providerId) = Some range
           /\ providers !! providerId = Some shared
           /\ version ∈ Object_keys shared
           /\ satisfies (coerce version) range = true
  | _ => True
  end.

(** The requested range selects a version of a registered provider that
    is bound to a binder. *)
Definition resolves (providers : gmap string SharedFeatureService)
    (providerId : string) (requestedRange : option string) : Prop :=
  exists range shared binder,
    truthy requestedRange = Some range
    /\ providers !! providerId = Some shared
    /\ find_binder shared (find_version (Object_keys shared) range)
       = Some binder.

(** No binder of a registered provider throws. *)
Definition binders_return (providers : gmap string SharedFeatureService)
  : Prop :=
  forall providerId shared version binder,
    providers !! providerId = Some shared ->
    obj_get version shared = Some (Some binder) ->
    forall consumerUid w, exists binding w',
      binder consumerUid w = (Ok binding, w').

(** The ids of a batch, and the last definition of the batch with a
    given id. *)
Definition last_definition (providerId : string)
    (definitions : list FeatureServiceProviderDefinition)
  : option FeatureServiceProviderDefinition :=
  List.find (fun definition : FeatureServiceProviderDefinition =>
               bool_decide (id definition = providerId))
            (reverse definitions).
End FurtherVocabulary.

(** ** Proof steps *)

(** Replaces a lookup in the goal by its value, given by [Hp]. *)
Ltac lookup_is Hp :=
  match goal with
  | |- context [?m !! ?k] =>
      match type of Hp with
      | _ !! k = _ =>
          destruct (m !! k) eqn:?; simplify_eq
      end
  end.

(** * Properties *)

#[local] Set Warnings "-clear-no-such-hyp".

(** ** Key order of objects *)

Lemma elem_of_insert_index n k l x :
  x ∈ insert_index n k l <-> x = (n, k) \/ x ∈ l.
Proof.
  induction l as [|[m k'] l IH]; simpl.
  - rewrite list_elem_of_singleton, elem_of_nil. tauto.
  - destruct (n <? m)%N.
    + rewrite elem_of_cons. reflexivity.
    + rewrite !elem_of_cons, IH. tauto.
Qed.

Lemma elem_of_index_keys k n ks :
  (n, k) ∈ index_keys ks <-> k ∈ ks /\ array_index k = Some n.
Proof.
  induction ks as [|k' ks IH]; simpl.
  - rewrite !elem_of_nil. tauto.
  - rewrite elem_of_cons.
    destruct (array_index k') as [m|] eqn:E.
    + rewrite elem_of_insert_index, IH.
      split.
      * intros [[= -> ->]|[? ?]]; auto.
      * intros [[->|?] ?]; [left; congruence | auto].
    + rewrite IH. split.
      * intros [? ?]; auto.
      * intros [[->|?] ?]; [congruence | auto].
Qed.

Lemma elem_of_own_property_keys k ks :
  k ∈ own_property_keys ks <-> k ∈ ks.
Proof.
  unfold own_property_keys, string_keys.
  rewrite elem_of_app, list_elem_of_fmap, list_elem_of_filter.
  split.
  - intros [[[n k'] [-> Hin]]|[_ ?]]; [|done].
    apply elem_of_index_keys in Hin. tauto.
  - intros Hin. destruct (array_index k) as [n|] eqn:E.
    + left. exists (n, k). split; [done|]. by apply elem_of_index_keys.
    + by right.
Qed.

Lemma index_keys_none ks :
  Forall (fun k => array_index k = None) ks -> index_keys ks = [].
Proof.
  induction 1 as [|k ks Hk _ IH]; simpl; [done|]. by rewrite Hk.
Qed.

(** Without array indices among the keys, the key order is the creation
    order. *)
Lemma own_property_keys_creation_order ks :
  Forall (fun k => array_index k = None) ks -> own_property_keys ks = ks.
Proof.
  intros Hks. unfold own_property_keys, string_keys.
  rewrite index_keys_none by done. simpl.
  induction Hks as [|k ks Hk _ IH]; [done|].
  rewrite filter_cons_True by done. by rewrite IH.
Qed.

Section ObjectFacts.
Context {A : Type}.
Implicit Types (o : JsObject A) (k : string).

Lemma obj_get_is_Some k o : is_Some (obj_get k o) <-> k ∈ o.*1.
Proof.
  induction o as [|[k' v] o IH]; simpl.
  - split; [by intros [? ?] | by intros ?%elem_of_nil].
  - rewrite elem_of_cons. destruct (decide (k = k')) as [->|Hne].
    + split; eauto.
    + rewrite IH. split; [auto | intros [?|?]; [congruence | done]].
Qed.

Lemma elem_of_Object_keys k o : k ∈ Object_keys o <-> is_Some (obj_get k o).
Proof.
  unfold Object_keys. by rewrite elem_of_own_property_keys, obj_get_is_Some.
Qed.

Lemma obj_get_set k k' v o :
  obj_get k (obj_set k' v o) = if decide (k = k') then Some v else obj_get k o.
Proof.
  induction o as [|[k'' v''] o IH]; simpl.
  - by destruct (decide (k = k')).
  - destruct (decide (k' = k'')) as [->|Hne]; simpl.
    + destruct (decide (k = k'')); done.
    + rewrite IH. destruct (decide (k = k'')) as [->|]; [|done].
      by rewrite decide_False by done.
Qed.

Lemma obj_get_copy_keys k (source target : JsObject A) keys :
  obj_get k
    (foldl (fun t k =>
              match obj_get k source with
              | Some v => obj_set k v t
              | None => t
              end) target keys)
  = if decide (k ∈ keys /\ is_Some (obj_get k source))
    then obj_get k source else obj_get k target.
Proof.
  revert target. induction keys as [|k' keys IH]; intros target; cbn [foldl].
  - destruct (decide _) as [[?%elem_of_nil _]|]; done.
  - rewrite IH. clear IH.
    destruct (decide (k ∈ keys /\ _)) as [[Hin Hs]|Hn];
      destruct (decide (k ∈ k' :: keys /\ _)) as [[Hin' Hs']|Hn']; try done.
    + exfalso. apply Hn'. split; [by right | done].
    + apply elem_of_cons in Hin' as [->|Hin']; [|exfalso; by apply Hn].
      destruct Hs' as [v Hv]. rewrite Hv, obj_get_set.
      by rewrite decide_True by done.
    + destruct (obj_get k' source) as [v|] eqn:E; [|done].
      rewrite obj_get_set. destruct (decide (k = k')) as [->|]; [|done].
      exfalso. apply Hn'. split; [left | eauto].
Qed.

Lemma obj_get_copyDataProperties k (target source : JsObject A) :
  obj_get k (copyDataProperties target source)
  = match obj_get k source with
    | Some v => Some v
    | None => obj_get k target
    end.
Proof.
  unfold copyDataProperties. rewrite obj_get_copy_keys.
  case_decide as Hd.
  - destruct Hd as [_ [v ->]]. done.
  - destruct (obj_get k source) eqn:E; [|done].
    exfalso. apply Hd. split; [|eauto]. apply elem_of_Object_keys. eauto.
Qed.

(** [{...a, ...b}[k]] is [b[k]] when [b] has [k], else [a[k]]. *)
Lemma obj_get_spread k (a b : JsObject A) :
  obj_get k (spread a b)
  = match obj_get k b with
    | Some v => Some v
    | None => obj_get k a
    end.
Proof.
  unfold spread. rewrite !obj_get_copyDataProperties. simpl.
  destruct (obj_get k b); [done|]. by destruct (obj_get k a).
Qed.

Lemma hasOwnProperty_true k o : hasOwnProperty k o = true <-> is_Some (obj_get k o).
Proof. unfold hasOwnProperty. by rewrite bool_decide_eq_true. Qed.
End ObjectFacts.

Lemma find_first {A} (f : A -> bool) (l : list A) v :
  List.find f l = Some v ->
  exists earlier later,
    l = earlier ++ v :: later /\ f v = true
    /\ Forall (fun u => f u = false) earlier.
Proof.
  induction l as [|x l IH]; simpl; [done|].
  destruct (f x) eqn:E.
  - intros [= ->]. exists [], l. auto.
  - intros Hf. destruct (IH Hf) as (earlier & later & -> & Hv & Hall).
    exists (x :: earlier), later. auto.
Qed.

Lemma find_none {A} (f : A -> bool) (l : list A) :
  List.find f l = None <-> Forall (fun u => f u = false) l.
Proof.
  induction l as [|x l IH]; simpl.
  - split; auto.
  - destruct (f x) eqn:E.
    + split; [done|]. intros Hall. inversion Hall; congruence.
    + rewrite IH. split; [auto|]. intros Hall. by inversion Hall.
Qed.

(** ** The registry *)

Section RegistryFacts.
Context `{Imports}.
Implicit Types (s : FeatureServiceRegistry) (optional : bool).

Lemma skip_or_throw_required m s :
  skip_or_throw false m s = (Throw (Error m), s).
Proof. reflexivity. Qed.

Lemma skip_or_throw_optional m s :
  skip_or_throw true m s = (Ok None, add_event (ConsoleInfo m) s).
Proof. reflexivity. Qed.

Lemma find_binder_None (shared : SharedFeatureService) :
  find_binder shared None = None.
Proof. reflexivity. Qed.

(** What [bindFeatureService] does when the dependency cannot be
    resolved. *)
Lemma bindFeatureService_unresolved providerId consumerUid range optional s msg :
  Unresolved (sharedFeatureServices s) providerId range msg ->
  bindFeatureService providerId consumerUid range optional s
  = skip_or_throw optional (msg optional consumerUid) s.
Proof.
  intros [Hr | r Hr Hp | r shared Hr Hp Hv]; unfold bindFeatureService;
    rewrite Hr.
  - done.
  - unfold bind, this. cbn beta iota. by lookup_is Hp.
  - unfold bind, this. cbn beta iota. lookup_is Hp.
    apply find_none in Hv. unfold find_version. by rewrite Hv.

Qed.

(** What it does when a version is found and is bound to a binder. *)
Lemma bindFeatureService_resolved
    providerId consumerUid range r optional s shared version binder :
  truthy range = Some r ->
  sharedFeatureServices s !! providerId = Some shared ->
  find_version (Object_keys shared) r = Some version ->
  find_binder shared (Some version) = Some binder ->
  bindFeatureService providerId consumerUid range optional s
  = let '(result, w) := binder consumerUid (world s) in
    (match result with Ok binding => Ok (Some binding) | Throw e => Throw e end,
     with_world w (add_event (CalledBinder providerId version consumerUid) s)).
Proof.
  intros Hr Hp Hv Hb. unfold bindFeatureService.
  rewrite Hr. unfold bind, this. cbn beta iota. lookup_is Hp.
  rewrite Hv, Hb. simpl.
  unfold external, emit. simpl.
  by destruct (binder consumerUid (world s)) as [[binding|e] w].
Qed.

(** C1 (as amended): the version bound is the first one, in the order
    in which [Object.keys] lists the version keys of the provider, whose
    coerced version satisfies the requested range, whatever satisfying
    versions come later; that order is the provider's declaration order
    when no version key is an array index; and among ["1.0.0"; "2.0.0"],
    the range ["^1.0 || ^2.0"] selects ["1.0.0"]. *)
Theorem first_match_in_key_order
    providerId consumerUid range r optional s shared earlier version later :
  truthy range = Some r ->
  sharedFeatureServices s !! providerId = Some shared ->
  Object_keys shared = earlier ++ version :: later ->
  satisfies (coerce version) r = true ->
  Forall (fun v => satisfies (coerce v) r = false) earlier ->
  find_version (Object_keys shared) r = Some version
  /\ (forall binder,
        find_binder shared (Some version) = Some binder ->
        bindFeatureService providerId consumerUid range optional s
        = let '(result, w) := binder consumerUid (world s) in
          (match result with
           | Ok binding => Ok (Some binding)
           | Throw e => Throw e
           end,
           with_world w
             (add_event (CalledBinder providerId version consumerUid) s)))
  /\ (Forall (fun k => array_index k = None) shared.*1 ->
      Object_keys shared = shared.*1)
  /\ find_version (H := node) ["1.0.0"; "2.0.0"] "^1.0 || ^2.0" = Some "1.0.0".
Proof.
  intros Hr Hp Hkeys Hsat Hearlier.
  assert (Hfind : find_version (Object_keys shared) r = Some version).
  { rewrite Hkeys. unfold find_version. clear Hkeys.
    induction Hearlier as [|v earlier Hv _ IH]; simpl.
    - by rewrite Hsat.
    - by rewrite Hv. }
  split; [done|]. split; [|split].
  - intros binder Hb. by eapply bindFeatureService_resolved.
  - apply own_property_keys_creation_order.
  - reflexivity.
Qed.
End RegistryFacts.

Section FirstMatchConcrete.
#[local] Existing Instance node.

Lemma first_match_in_key_order_witness :
bindFeatureService "svc" "app" (Some "^1.0 || ^2.0") false
  (Samples.registryWith "svc" Samples.v1_then_v2)
= (Ok (Some {| featureService := "v1";
               unbind := Some (fun w => (Ok tt, w ++ ["unbind v1"])) |}),
   with_world ["bind v1 to app"]
     (add_event (CalledBinder "svc" "1.0.0" "app")
        (Samples.registryWith "svc" Samples.v1_then_v2))).
Proof.
refine (proj1 (proj2 (first_match_in_key_order
          "svc" "app" (Some "^1.0 || ^2.0") "^1.0 || ^2.0" false
          (Samples.registryWith "svc" Samples.v1_then_v2)
          Samples.v1_then_v2 [] "1.0.0" ["2.0.0"] _ _ _ _ _))
          (Samples.binderOf "v1") _);
  try reflexivity.
constructor.
Defined.

(** C1, as stated, fails for version keys that are array indices: the
    provider declares ["1.5.0"] before ["2"], both satisfy the range, and
    ["2"], declared later and numerically higher, is bound. *)
Lemma declaration_order_counterexample :
  Samples.one_five_then_two.*1 = ["1.5.0"; "2"]
  /\ List.find (fun v => satisfies (coerce v) "^1.0 || ^2.0")
               (Samples.one_five_then_two.*1) = Some "1.5.0"
  /\ find_version (Object_keys Samples.one_five_then_two) "^1.0 || ^2.0"
     = Some "2"
  /\ trace (bindFeatureService "svc" "app" (Some "^1.0 || ^2.0") false
              (Samples.registryWith "svc" Samples.one_five_then_two)).2
     = [CalledBinder "svc" "2" "app"].
Proof. repeat split; reflexivity. Qed.
End FirstMatchConcrete.

Section Frames.
Context `{Imports}.
Implicit Types (s : FeatureServiceRegistry) (optional : bool).

Lemma same_collections_refl s : same_collections s s.
Proof. by repeat split. Qed.

Lemma same_collections_trans s1 s2 s3 :
  same_collections s1 s2 -> same_collections s2 s3 -> same_collections s1 s3.
Proof.
  intros (? & ? & ? & ? & ?) (? & ? & ? & ? & ?).
  repeat split; congruence.
Qed.

Lemma only_events_refl allowed s : only_events allowed s s.
Proof.
  split; [apply same_collections_refl|].
  exists []. by rewrite app_nil_r.
Qed.

Lemma only_events_trans allowed s1 s2 s3 :
  only_events allowed s1 s2 -> only_events allowed s2 s3 ->
  only_events allowed s1 s3.
Proof.
  intros [Hc1 (ev1 & Ht1 & Ha1)] [Hc2 (ev2 & Ht2 & Ha2)].
  split; [by eapply same_collections_trans|].
  exists (ev1 ++ ev2). rewrite Ht2, Ht1, <- app_assoc. split; [done|].
  rewrite forallb_app. by rewrite Ha1, Ha2.
Qed.

Lemma only_events_add_event (allowed : Event -> bool) e s :
  allowed e = true -> only_events allowed s (add_event e s).
Proof.
  intros He. split; [by repeat split|].
  exists [e]. simpl. by rewrite He.
Qed.

Lemma only_events_with_world allowed w s : only_events allowed s (with_world w s).
Proof.
  split; [by repeat split|]. exists []. by rewrite app_nil_r.
Qed.

Lemma only_events_weaken (allowed allowed' : Event -> bool) s s' :
  (forall e, allowed e = true -> allowed' e = true) ->
  only_events allowed s s' -> only_events allowed' s s'.
Proof.
  intros Hsub [Hc (events & Ht & Ha)]. split; [done|].
  exists events. split; [done|].
  apply forallb_forall. intros e He.
  apply Hsub. by eapply forallb_forall in Ha.
Qed.

Lemma skip_or_throw_only_events optional m s r s' :
  skip_or_throw optional m s = (r, s') -> only_events binding_event s s'.
Proof.
  destruct optional; intros [= <- <-].
  - by apply only_events_add_event.
  - apply only_events_refl.
Qed.

(** Resolving one dependency touches neither collection; it writes
    notices and calls at most a binder. *)
Lemma bindFeatureService_only_events providerId consumerUid range optional s r s' :
  bindFeatureService providerId consumerUid range optional s = (r, s') ->
  only_events binding_event s s'.
Proof.
  unfold bindFeatureService.
  destruct (truthy range) as [range'|];
    [|apply skip_or_throw_only_events].
  unfold bind, this. cbn beta iota.
  destruct (sharedFeatureServices s !! providerId) as [shared|];
    [|apply skip_or_throw_only_events].
  destruct (find_binder shared _) as [binder|];
    [|apply skip_or_throw_only_events].
  unfold emit, external, ret. cbn beta iota. cbn [world add_event].
  destruct (binder consumerUid (world s)) as [[binding|e] w]; intros [= <- <-].
  all: eapply only_events_trans; [|apply only_events_with_world];
    by apply only_events_add_event.
Qed.

Lemma bindAll_only_events deps allDeps consumerUid providerIds bindings fs s r s' :
  bindAll deps allDeps consumerUid providerIds bindings fs s = (r, s') ->
  only_events binding_event s s'.
Proof.
  revert bindings fs s.
  induction providerIds as [|providerId rest IH]; intros bindings fs s; simpl.
  - intros [= <- <-]. apply only_events_refl.
  - unfold bind at 1.
    destruct (bindFeatureService _ _ _ _ s) as [[[binding|]|e] s1] eqn:E;
      apply bindFeatureService_only_events in E.
    + unfold bind, console_info, emit. intros Hrest%IH.
      eapply only_events_trans; [done|].
      eapply only_events_trans; [|done].
      by apply only_events_add_event.
    + intros Hrest%IH. by eapply only_events_trans.
    + by intros [= <- <-].
Qed.

(** A required dependency that cannot be resolved makes the loop of
    [bindFeatureServices] throw. *)
Lemma bindAll_required_unresolved
    deps allDeps consumerUid providerIds bindings fs s providerId msg :
  providerId ∈ providerIds ->
  hasOwnProperty providerId deps = true ->
  Unresolved (sharedFeatureServices s) providerId
    (mjoin (obj_get providerId allDeps)) msg ->
  exists e s',
    bindAll deps allDeps consumerUid providerIds bindings fs s = (Throw e, s').
Proof.
  intros Hin Hreq. revert bindings fs s.
  induction providerIds as [|k rest IH]; intros bindings fs s Hun.
  { by apply elem_of_nil in Hin. }
  simpl. unfold bind at 1.
  destruct (bindFeatureService k _ _ _ s) as [[binding|e] s1] eqn:E;
    [|eauto].
  destruct (decide (k = providerId)) as [->|Hne].
  { rewrite (bindFeatureService_unresolved _ _ _ _ _ _ Hun), Hreq in E.
    discriminate. }
  apply elem_of_cons in Hin as [->|Hin]; [done|].
  apply bindFeatureService_only_events in E as [(Hs & _) _].
  rewrite <- Hs in Hun.
  destruct binding as [binding|].
  - unfold bind, console_info, emit. cbn beta iota. by apply IH.
  - by apply IH.
Qed.

(** A dependency that cannot be resolved is absent from the outcome of
    the loop. *)
Lemma bindAll_unresolved_absent
    deps allDeps consumerUid providerIds bindings fs s providerId msg bindings' fs' s' :
  Unresolved (sharedFeatureServices s) providerId
    (mjoin (obj_get providerId allDeps)) msg ->
  bindAll deps allDeps consumerUid providerIds bindings fs s
  = (Ok (bindings', fs'), s') ->
  obj_get providerId fs' = obj_get providerId fs
  /\ map_get providerId bindings' = map_get providerId bindings.
Proof.
  revert bindings fs s.
  induction providerIds as [|k rest IH]; intros bindings fs s Hun; simpl.
  { by intros [= <- <- <-]. }
  unfold bind at 1.
  destruct (bindFeatureService k _ _ _ s) as [[binding|e] s1] eqn:E;
    [|done].
  pose proof E as [(Hs & _) _]%bindFeatureService_only_events.
  destruct binding as [binding|].
  - destruct (decide (k = providerId)) as [->|Hne].
    { rewrite (bindFeatureService_unresolved _ _ _ _ _ _ Hun) in E.
      by destruct (negb _). }
    unfold bind, console_info, emit. cbn beta iota. intros Hrest.
    apply IH in Hrest as [-> ->].
    + unfold map_get, map_set. rewrite !obj_get_set.
      by rewrite !decide_False by done.
    + cbn. by rewrite Hs.
  - intros Hrest. apply IH in Hrest; [done|]. by rewrite Hs.
Qed.
End Frames.

Section Binding.
Context `{Imports}.
Implicit Types (s : FeatureServiceRegistry) (optional : bool).

(** [bindFeatureServices], step by step. *)
Lemma bindFeatureServices_unfold consumerDefinition specifier s :
  let deps := default [] (dependencies consumerDefinition) in
  let optionalDeps := default [] (optionalDependencies consumerDefinition) in
  let consumerUid := createUid (id consumerDefinition) specifier in
  let allDeps := spread optionalDeps deps in
  bindFeatureServices consumerDefinition specifier s
  = if decide (consumerUid ∈ consumerUids s)
    then (Throw (Error (featureServicesAlreadyBound consumerUid)), s)
    else
      match bindAll deps allDeps consumerUid (Object_keys allDeps) [] [] s with
      | (Ok (bindings, fs), s1) =>
          (Ok {| featureServices := fs;
                 unbindFeatureServices :=
                   {| closure_consumerUid := consumerUid;
                      closure_bindings := bindings;
                      closure_unbound := nextCell s1 |} |},
           with_unboundCells (unboundCells s1 ∖ {[nextCell s1]}) (S (nextCell s1))
             (with_consumerUids ({[consumerUid]} ∪ consumerUids s1) s1))
      | (Throw e, s1) => (Throw e, s1)
      end.
Proof.
  intros deps optionalDeps consumerUid allDeps.
  unfold bindFeatureServices, bind at 1, this. cbn beta iota.
  fold deps optionalDeps consumerUid allDeps.
  destruct (decide (consumerUid ∈ consumerUids s)); [done|].
  unfold bind at 1.
  by destruct (bindAll _ _ _ _ _ _ s) as [[[bindings fs]|e] s1].
Qed.

Lemma required_unresolved_throws consumerDefinition specifier s providerId msg :
  hasOwnProperty providerId (default [] (dependencies consumerDefinition)) = true ->
  Unresolved (sharedFeatureServices s) providerId
    (mjoin (obj_get providerId (default [] (dependencies consumerDefinition)))) msg ->
  exists e s', bindFeatureServices consumerDefinition specifier s = (Throw e, s').
Proof.
  intros Hreq Hun. rewrite bindFeatureServices_unfold.
  destruct (decide _); [eauto|].
  set (deps := default [] (dependencies consumerDefinition)) in *.
  set (allDeps := spread _ deps).
  assert (Hget : obj_get providerId allDeps = obj_get providerId deps).
  { unfold allDeps. rewrite obj_get_spread.
    apply hasOwnProperty_true in Hreq as [v ->]. done. }
  destruct (bindAll_required_unresolved deps allDeps
              (createUid (id consumerDefinition) specifier)
              (Object_keys allDeps) [] [] s providerId msg) as (e & s' & ->).
  - apply elem_of_Object_keys. rewrite Hget. by apply hasOwnProperty_true.
  - done.
  - by rewrite Hget.
  - eauto.
Qed.

(** C9: a requested Feature Service that has no range declared, or no
    registered provider, or no exposed version satisfying the range, makes
    the bind throw when it is required (for an unsatisfied range, the
    error lists the exposed versions: see [Unresolved]); when it is
    optional, a notice is written, the loop goes on with the next
    dependency, and the Feature Service is absent from the result. *)
Theorem unresolved_dependency s providerId range msg :
  Unresolved (sharedFeatureServices s) providerId range msg ->
  (forall consumerUid,
     bindFeatureService providerId consumerUid range false s
     = (Throw (Error (msg false consumerUid)), s))
  /\ (forall consumerUid,
        bindFeatureService providerId consumerUid range true s
        = (Ok None, add_event (ConsoleInfo (msg true consumerUid)) s))
  /\ (forall consumerDefinition specifier,
        let deps := default [] (dependencies consumerDefinition) in
        hasOwnProperty providerId deps = true ->
        mjoin (obj_get providerId deps) = range ->
        exists e s',
          bindFeatureServices consumerDefinition specifier s = (Throw e, s'))
  /\ (forall consumerDefinition specifier,
        let deps := default [] (dependencies consumerDefinition) in
        let optionalDeps := default [] (optionalDependencies consumerDefinition) in
        let allDeps := spread optionalDeps deps in
        hasOwnProperty providerId deps = false ->
        mjoin (obj_get providerId optionalDeps) = range ->
        (forall consumerUid rest bindings fs,
           bindAll deps allDeps consumerUid (providerId :: rest) bindings fs s
           = bindAll deps allDeps consumerUid rest bindings fs
               (add_event (ConsoleInfo (msg true consumerUid)) s))
        /\ (forall binding s',
              bindFeatureServices consumerDefinition specifier s
              = (Ok binding, s') ->
              obj_get providerId (featureServices binding) = None)).
Proof.
  intros Hun. split; [|split; [|split]].
  - intros consumerUid. by rewrite (bindFeatureService_unresolved _ _ _ _ _ _ Hun).
  - intros consumerUid. by rewrite (bindFeatureService_unresolved _ _ _ _ _ _ Hun).
  - intros consumerDefinition specifier deps Hreq <-.
    by eapply required_unresolved_throws.
  - intros consumerDefinition specifier deps optionalDeps allDeps Hopt Hrange.
    assert (Hget : mjoin (obj_get providerId allDeps) = range).
    { unfold allDeps. rewrite obj_get_spread.
      destruct (obj_get providerId deps) eqn:E; [|done].
      unfold hasOwnProperty in Hopt. rewrite E in Hopt.
      apply bool_decide_eq_false in Hopt. exfalso. eauto. }
    split.
    + intros consumerUid rest bindings fs. simpl. unfold bind at 1.
      rewrite Hget, Hopt. simpl.
      by rewrite (bindFeatureService_unresolved _ _ _ _ _ _ Hun).
    + intros binding s'. rewrite bindFeatureServices_unfold.
      destruct (decide _); [done|].
      fold deps optionalDeps allDeps.
      destruct (bindAll _ _ _ _ _ _ s) as [[[bindings fs]|e] s1] eqn:E; [|done].
      intros [= <- <-]. simpl.
      eapply bindAll_unresolved_absent in E as [-> _]; [done|].
      by rewrite Hget.
Qed.

(** C7: a Feature Service listed both as a dependency and as an optional
    dependency is resolved as required: the range of [dependencies] is
    used, and when it cannot be resolved the bind throws the error of a
    required dependency instead of skipping it. *)
Theorem required_wins_over_optional consumerDefinition providerId :
  let deps := default [] (dependencies consumerDefinition) in
  let optionalDeps := default [] (optionalDependencies consumerDefinition) in
  let allDeps := spread optionalDeps deps in
  hasOwnProperty providerId deps = true ->
  hasOwnProperty providerId optionalDeps = true ->
  obj_get providerId allDeps = obj_get providerId deps
  /\ providerId ∈ Object_keys allDeps
  /\ (forall s msg,
        Unresolved (sharedFeatureServices s) providerId
          (mjoin (obj_get providerId deps)) msg ->
        (forall consumerUid rest bindings fs,
           bindAll deps allDeps consumerUid (providerId :: rest) bindings fs s
           = (Throw (Error (msg false consumerUid)), s))
        /\ (forall specifier, exists e s',
              bindFeatureServices consumerDefinition specifier s = (Throw e, s'))).
Proof.
  intros deps optionalDeps allDeps Hreq Hopt.
  assert (Hget : obj_get providerId allDeps = obj_get providerId deps).
  { unfold allDeps. rewrite obj_get_spread.
    by apply hasOwnProperty_true in Hreq as [v ->]. }
  split; [done|]. split.
  { apply elem_of_Object_keys. rewrite Hget. by apply hasOwnProperty_true. }
  intros s msg Hun. split.
  - intros consumerUid rest bindings fs. simpl. unfold bind at 1.
    rewrite Hget, Hreq. simpl.
    by rewrite (bindFeatureService_unresolved _ _ _ _ _ _ Hun).
  - intros specifier. by eapply required_unresolved_throws.
Qed.
End Binding.

Section Unbinding.
Context `{Imports}.
Implicit Types (s : FeatureServiceRegistry).

(** The loop of [unbind] never throws and does what [teardown] says. *)
Lemma unbindAll_teardown consumerUid bindings s :
  unbindAll consumerUid bindings s
  = (Ok tt,
     with_trace (trace s ++ (teardown consumerUid bindings (world s)).2)
       (with_world (teardown consumerUid bindings (world s)).1 s)).
Proof.
  revert s. induction bindings as [|[providerId binding] rest IH]; intros s.
  - simpl. rewrite app_nil_r. by destruct s.
  - cbn [unbindAll teardown].
    unfold bind, try_catch, external, console_info, console_error, emit, ret.
    destruct (unbind binding) as [callback|]; cbn [world add_event].
    + destruct (callback (world s)) as [[[]|e] w1]; cbn beta iota zeta;
        rewrite IH; cbn [world add_event with_world];
        destruct (teardown consumerUid rest w1) as [w2 events'];
        unfold with_trace, with_world; cbn; by rewrite <- !app_assoc.
    + rewrite IH. cbn [world add_event with_world].
      destruct (teardown consumerUid rest (world s)) as [w2 events'].
      unfold with_trace, with_world. cbn. by rewrite <- !app_assoc.
Qed.

(** Every binding with a callback gets its teardown call, in binding
    order, whatever the teardowns before it did. *)
Lemma teardown_calls_complete consumerUid bindings w :
  filter (fun e => is_CalledUnbind e = true) (teardown consumerUid bindings w).2
  = teardown_calls consumerUid bindings.
Proof.
  revert w. induction bindings as [|[providerId binding] rest IH]; intros w.
  - done.
  - cbn [teardown]. unfold teardown_calls. cbn [omap list_omap]. cbn [fst snd].
    destruct (unbind binding) as [callback|].
    + destruct (callback w) as [[[]|e] w1];
        destruct (teardown consumerUid rest w1) as [w2 events'] eqn:E;
        cbn [snd]; specialize (IH w1); rewrite E in IH; cbn [snd] in IH.
      * cbn [app]. rewrite filter_cons_True by done.
        rewrite filter_cons_False by done. by rewrite IH.
      * cbn [app]. rewrite filter_cons_True by done.
        rewrite filter_cons_False by done. by rewrite IH.
    + destruct (teardown consumerUid rest w) as [w2 events'] eqn:E.
      cbn [snd]. specialize (IH w). rewrite E in IH. cbn [snd] in IH.
      cbn [app]. rewrite filter_cons_False by done. by rewrite IH.
Qed.

Lemma call_unbind_unfold closure s :
  call_unbind closure s
  = if decide (closure_unbound closure ∈ unboundCells s)
    then (Throw (Error (featureServicesAlreadyUnbound (closure_consumerUid closure))), s)
    else
      unbindAll (closure_consumerUid closure) (closure_bindings closure)
        (with_consumerUids (consumerUids s ∖ {[closure_consumerUid closure]})
           (with_unboundCells (unboundCells s ∪ {[closure_unbound closure]})
              (nextCell s) s)).
Proof.
  unfold call_unbind, bind at 1, this. cbn beta iota.
  by destruct (decide _).
Qed.

(** C8: [unbind] invokes the optional [unbind] callback of each recorded
    binding in binding order; an exception thrown by one of them is
    logged and the teardown of the following bindings still runs; the
    call itself returns normally. *)
Theorem unbind_isolates_teardown closure s :
  closure_unbound closure ∉ unboundCells s ->
  let consumerUid := closure_consumerUid closure in
  let bindings := closure_bindings closure in
  exists s',
    call_unbind closure s = (Ok tt, s')
    /\ world s' = (teardown consumerUid bindings (world s)).1
    /\ trace s' = trace s ++ (teardown consumerUid bindings (world s)).2
    /\ filter (fun e => is_CalledUnbind e = true)
              (teardown consumerUid bindings (world s)).2
       = teardown_calls consumerUid bindings.
Proof.
  intros Hcell consumerUid bindings.
  rewrite call_unbind_unfold, decide_False by done.
  rewrite unbindAll_teardown. eexists. split; [done|].
  split; [done|]. split; [done|]. apply teardown_calls_complete.
Qed.
End Unbinding.

Section Registration.
Context `{Imports}.
Implicit Types (s : FeatureServiceRegistry).

Lemma bindFeatureServices_already_bound consumerDefinition specifier s :
  createUid (id consumerDefinition) specifier ∈ consumerUids s ->
  bindFeatureServices consumerDefinition specifier s
  = (Throw (Error (featureServicesAlreadyBound
                     (createUid (id consumerDefinition) specifier))), s).
Proof. intros Hin. rewrite bindFeatureServices_unfold. by rewrite decide_True. Qed.

(** A bind that throws changes neither collection and runs no teardown. *)
Lemma bindFeatureServices_throw consumerDefinition specifier s e s' :
  bindFeatureServices consumerDefinition specifier s = (Throw e, s') ->
  only_events binding_event s s'.
Proof.
  rewrite bindFeatureServices_unfold. destruct (decide _).
  - intros [= <- <-]. apply only_events_refl.
  - destruct (bindAll _ _ _ _ _ _ s) as [[[bindings fs]|e'] s1] eqn:E; [done|].
    intros [= <- <-]. by eapply bindAll_only_events.
Qed.

(** A bind that returns has added the uid and allocated the flag of the
    closure it returns. *)
Lemma bindFeatureServices_ok consumerDefinition specifier s binding s' :
  bindFeatureServices consumerDefinition specifier s = (Ok binding, s') ->
  let consumerUid := createUid (id consumerDefinition) specifier in
  (consumerUid ∉ consumerUids s)
  /\ closure_consumerUid (unbindFeatureServices binding) = consumerUid
  /\ closure_unbound (unbindFeatureServices binding) = nextCell s
  /\ sharedFeatureServices s' = sharedFeatureServices s
  /\ configs s' = configs s
  /\ consumerUids s' = {[consumerUid]} ∪ consumerUids s
  /\ unboundCells s' = unboundCells s ∖ {[nextCell s]}
  /\ nextCell s' = S (nextCell s)
  /\ exists events,
       trace s' = trace s ++ events /\ forallb binding_event events = true.
Proof.
  rewrite bindFeatureServices_unfold. destruct (decide _) as [|Hnot]; [done|].
  destruct (bindAll _ _ _ _ _ _ s) as [[[bindings fs]|e'] s1] eqn:E; [|done].
  intros [= <- <-].
  apply bindAll_only_events in E as [(Hs & Hu & Hc & Hcells & Hnext) Hev].
  cbn. rewrite Hs, Hu, Hc, Hcells, Hnext. repeat split; done.
Qed.

Lemma checkVersions_run providerId consumerId versions s :
  checkVersions providerId consumerId versions s
  = if decide (Forall (fun version => is_Some (coerce version)) versions)
    then (Ok tt, s)
    else (Throw (Error (featureServiceVersionInvalid providerId consumerId)), s).
Proof.
  induction versions as [|version rest IH]; cbn [checkVersions].
  - unfold ret. destruct (decide _) as [|Hn]; [done|]. by destruct Hn.
  - destruct (coerce version) as [v|] eqn:E.
    + rewrite IH. destruct (decide (Forall _ rest)) as [Hall|Hnot].
      * rewrite decide_True; [done|]. constructor; [by rewrite E | done].
      * rewrite decide_False; [done|]. intros Hall. by inversion Hall.
    + rewrite decide_False; [done|]. intros Hall. inversion Hall as [|? ? Hv].
      rewrite E in Hv. by destruct Hv.
Qed.

Lemma registerFeatureService_registered byId consumerId providerId s shared :
  sharedFeatureServices s !! providerId = Some shared ->
  registerFeatureService byId consumerId providerId s
  = (Ok tt,
     if map_has providerId byId
     then add_event
            (ConsoleWarn (featureServiceAlreadyRegistered providerId consumerId)) s
     else s).
Proof.
  intros Hp. unfold registerFeatureService, bind at 1, this. cbn beta iota.
  rewrite decide_True by (lookup_is Hp; eauto).
  by destruct (map_has providerId byId).
Qed.

Lemma registerFeatureService_unknown byId consumerId providerId s :
  sharedFeatureServices s !! providerId = None ->
  map_get providerId byId = None ->
  registerFeatureService byId consumerId providerId s = (Ok tt, s).
Proof.
  intros Hp Hd. unfold registerFeatureService, bind at 1, this. cbn beta iota.
  rewrite decide_False by (lookup_is Hp; by intros [? ?]).
  by rewrite Hd.
Qed.

(** Registering a provider that is not registered yet, step by step. *)
Lemma registerFeatureService_new byId consumerId providerId s definition :
  sharedFeatureServices s !! providerId = None ->
  map_get providerId byId = Some definition ->
  registerFeatureService byId consumerId providerId s
  = match bindFeatureServices definition None s with
    | (Throw e, s1) => (Throw e, s1)
    | (Ok binding, s1) =>
        let env :=
          {| config := configs s ≫= (fun configs => configs !! providerId);
             env_featureServices := featureServices binding |} in
        let called := add_event (CalledCreate providerId) s1 in
        match create definition env (world s1) with
        | (Throw e, w2) => (Throw e, with_world w2 called)
        | (Ok shared, w2) =>
            if decide (Forall (fun version => is_Some (coerce version))
                              (Object_keys shared))
            then
              (Ok tt,
               add_event
                 (ConsoleInfo
                    (featureServiceSuccessfullyRegistered providerId consumerId))
                 (with_sharedFeatureServices
                    (<[providerId := shared]> (sharedFeatureServices s1))
                    (with_world w2 called)))
            else
              (Throw (Error (featureServiceVersionInvalid providerId consumerId)),
               with_world w2 called)
        end
    end.
Proof.
  intros Hp Hd. unfold registerFeatureService, bind at 1, this. cbn beta iota.
  rewrite decide_False by (lookup_is Hp; by intros [? ?]).
  rewrite Hd. unfold bind at 1.
  destruct (bindFeatureServices definition None s) as [[binding|e] s1]; [|done].
  unfold bind at 1, emit. cbn beta iota.
  unfold bind at 1, external. cbn [world add_event].
  destruct (create definition _ (world s1)) as [[shared|e] w2]; [|done].
  unfold bind at 1. rewrite checkVersions_run.
  destruct (decide _); done.
Qed.
End Registration.

Section RegistrationSteps.
Context `{Imports}.
Implicit Types (s : FeatureServiceRegistry).

Lemma older_cell_untouched (cells : gset nat) (next cell : nat) :
  cell < next -> cell ∈ cells ∖ {[next]} <-> cell ∈ cells.
Proof.
  intros Hlt. rewrite elem_of_difference, elem_of_singleton.
  split; [tauto|]. intros Hin. split; [done | lia].
Qed.

Lemma registration_step_refl s : registration_step s s.
Proof.
  unfold registration_step. split; [done|]. split; [done|]. split; [done|].
  split; [done|]. split; [done|]. split.
  - intros providerId [? ?]. congruence.
  - exists []. by rewrite app_nil_r.
Qed.

Lemma registration_step_trans s1 s2 s3 :
  registration_step s1 s2 -> registration_step s2 s3 -> registration_step s1 s3.
Proof.
  intros (Hp1 & Hu1 & Hc1 & Hn1 & Hf1 & Hnew1 & ev1 & Ht1 & He1)
         (Hp2 & Hu2 & Hc2 & Hn2 & Hf2 & Hnew2 & ev2 & Ht2 & He2).
  split; [auto|]. split; [set_solver|]. split; [congruence|].
  split; [lia|]. split; [|split].
  - intros cell Hcell. rewrite Hf2 by lia. by apply Hf1.
  - intros providerId Hin3 Hnot1.
    destruct (sharedFeatureServices s2 !! providerId) as [shared|] eqn:E.
    + destruct (Hnew1 providerId) as [? ?]; [eauto | done |]. set_solver.
    + destruct (Hnew2 providerId) as [? ?]; [done | done |]. set_solver.
  - exists (ev1 ++ ev2). rewrite Ht2, Ht1, <- app_assoc. split; [done|].
    apply Forall_app. split; [done|].
    eapply Forall_impl; [exact He2|]. intros e [? Hcreate]. split; [done|].
    intros providerId [shared Hshared]. apply Hcreate. eauto.
Qed.

Lemma only_events_registration_step (allowed : Event -> bool) s s' :
  (forall e, allowed e = true ->
             is_CalledUnbind e = false
             /\ forall providerId, is_CalledCreate providerId e = false) ->
  only_events allowed s s' -> registration_step s s'.
Proof.
  intros Hallowed [(Hs & Hu & Hc & Hcells & Hnext) (events & Ht & He)].
  split; [by rewrite Hs|]. split; [by rewrite Hu|]. split; [done|].
  split; [by rewrite Hnext|]. split; [by rewrite Hcells|]. split.
  - rewrite Hs. intros providerId [? ?]. congruence.
  - exists events. split; [done|]. apply Forall_forall. intros e Hin.
    rewrite forallb_forall in He.
    destruct (Hallowed e) as [? ?]; [apply He; by apply list_elem_of_In|].
    auto.
Qed.

Lemma binding_event_registration e :
  binding_event e = true ->
  is_CalledUnbind e = false
  /\ forall providerId, is_CalledCreate providerId e = false.
Proof. by destruct e. Qed.

Lemma createProviderDefinitionById_keyed
    (providerDefinitions : list FeatureServiceProviderDefinition) :
  keyed_by_id (createProviderDefinitionById providerDefinitions).
Proof.
  unfold createProviderDefinitionById.
  assert (Hgen : forall acc : ProviderDefinitionsById,
    keyed_by_id acc ->
    keyed_by_id
      (foldl (fun byId (definition : FeatureServiceProviderDefinition) =>
                map_set (id definition) definition byId)
             acc providerDefinitions)).
  { induction providerDefinitions as [|definition rest IH]; intros acc Hacc.
    - done.
    - simpl. apply IH. intros k d. unfold map_get, map_set.
      rewrite obj_get_set. destruct (decide (k = id definition)) as [->|Hne].
      + by intros [= <-].
      + apply Hacc. }
  apply Hgen. intros k d. discriminate.
Qed.

Lemma registerFeatureService_step byId consumerId providerId s r s' :
  keyed_by_id byId ->
  registerFeatureService byId consumerId providerId s = (r, s') ->
  registration_step s s'.
Proof.
  intros Hkeyed.
  destruct (sharedFeatureServices s !! providerId) as [shared|] eqn:Hp.
  { rewrite (registerFeatureService_registered _ _ _ _ _ Hp).
    intros [= <- <-]. destruct (map_has providerId byId).
    - apply (only_events_registration_step
               (fun e => match e with ConsoleWarn _ => true | _ => false end)).
      + by intros [].
      + by apply only_events_add_event.
    - apply registration_step_refl. }
  destruct (map_get providerId byId) as [definition|] eqn:Hd.
  2:{ rewrite registerFeatureService_unknown by done.
      intros [= <- <-]. apply registration_step_refl. }
  rewrite (registerFeatureService_new _ _ _ _ _ Hp Hd).
  destruct (bindFeatureServices definition None s) as [[binding|e] s1] eqn:Hb.
  2:{ intros [= <- <-]. apply bindFeatureServices_throw in Hb.
      eapply only_events_registration_step; [|done].
      apply binding_event_registration. }
  apply bindFeatureServices_ok in Hb
    as (Hfree & _ & _ & Hs & Hc & Hu & Hcells & Hnext & events & Ht & He).
  rewrite (Hkeyed _ _ Hd) in Hfree, Hu.
  assert (Hgrow : consumerUids s
                  ⊆ {[createUid providerId None]} ∪ consumerUids s)
    by apply union_subseteq_r.
  assert (Hevents : forall last,
    is_CalledUnbind last = false ->
    (forall p, is_Some (sharedFeatureServices s !! p) ->
               is_CalledCreate p last = false) ->
    Forall (fun e =>
              is_CalledUnbind e = false
              /\ forall p, is_Some (sharedFeatureServices s !! p) ->
                           is_CalledCreate p e = false)
           (events ++ [last])).
  { intros last Hl1 Hl2. apply Forall_app. split; [|by repeat constructor].
    apply Forall_forall. intros e Hin. rewrite forallb_forall in He.
    destruct (binding_event_registration e) as [? ?];
      [apply He; by apply list_elem_of_In|]. auto. }
  assert (Hcreate : forall p, is_Some (sharedFeatureServices s !! p) ->
                              is_CalledCreate providerId (CalledCreate p) = false
                              /\ is_CalledCreate p (CalledCreate providerId) = false).
  { intros p [shared Hshared]. cbn. rewrite !bool_decide_eq_false.
    split; intros ->; congruence. }
  cbn zeta.
  match goal with
  | |- context [create definition ?env (world s1)] =>
      destruct (create definition env (world s1)) as [[shared|e] w2]
  end.
  2:{ intros [= <- <-]. unfold registration_step. cbn.
      rewrite Hs, Hc, Hu, Hcells, Hnext, Ht.
      split; [done|]. split; [done|]. split; [done|]. split; [lia|].
      split; [intros cell ?; by apply older_cell_untouched|].
      split; [intros p [? ?]; congruence|].
      exists (events ++ [CalledCreate providerId]). rewrite <- app_assoc.
      split; [done|]. apply Hevents; [done|]. intros p Hsome.
      by apply Hcreate. }
  destruct (decide _) as [Hvalid|Hinvalid]; intros [= <- <-].
  - unfold registration_step. cbn. rewrite Hs, Hc, Hu, Hcells, Hnext, Ht.
    split.
    { intros p shared' Hp'. rewrite lookup_insert_ne; [done|]. congruence. }
    split; [done|]. split; [done|]. split; [lia|].
    split; [intros cell ?; by apply older_cell_untouched|].
    split.
    { intros p Hsome Hnone. destruct (decide (p = providerId)) as [->|Hne].
      - split; [|done]. apply elem_of_union_l. by apply elem_of_singleton.
      - rewrite lookup_insert_ne in Hsome by done.
        destruct Hsome. congruence. }
    exists ((events ++ [CalledCreate providerId])
            ++ [ConsoleInfo (featureServiceSuccessfullyRegistered providerId consumerId)]).
    rewrite <- !app_assoc. split; [done|]. rewrite app_assoc.
    apply Forall_app. split; [|by repeat constructor].
    apply Hevents; [done|]. intros p Hsome. by apply Hcreate.
  - unfold registration_step. cbn. rewrite Hs, Hc, Hu, Hcells, Hnext, Ht.
    split; [done|]. split; [done|]. split; [done|]. split; [lia|].
    split; [intros cell ?; by apply older_cell_untouched|].
    split; [intros p [? ?]; congruence|].
    exists (events ++ [CalledCreate providerId]). rewrite <- app_assoc.
    split; [done|]. apply Hevents; [done|]. intros p Hsome.
    by apply Hcreate.
Qed.

Lemma registerAll_step byId consumerId providerIds s r s' :
  keyed_by_id byId ->
  registerAll byId consumerId providerIds s = (r, s') ->
  registration_step s s'.
Proof.
  intros Hkeyed. revert s. induction providerIds as [|providerId rest IH]; intros s; simpl.
  - intros [= <- <-]. apply registration_step_refl.
  - unfold bind at 1.
    destruct (registerFeatureService _ _ _ s) as [[[]|e] s1] eqn:E;
      apply registerFeatureService_step in E; try done.
    + intros Hrest%IH. by eapply registration_step_trans.
    + by intros [= <- <-].
Qed.

Lemma registerFeatureServices_step providerDefinitions consumerId s r s' :
  registerFeatureServices providerDefinitions consumerId s = (r, s') ->
  registration_step s s'.
Proof.
  unfold registerFeatureServices.
  destruct (toposortDependencies _) as [providerIds|e].
  - apply registerAll_step, createProviderDefinitionById_keyed.
  - intros [= <- <-]. apply registration_step_refl.
Qed.

Lemma registerAll_app byId consumerId earlier later s :
  registerAll byId consumerId (earlier ++ later) s
  = match registerAll byId consumerId earlier s with
    | (Ok _, s1) => registerAll byId consumerId later s1
    | (Throw e, s1) => (Throw e, s1)
    end.
Proof.
  revert s. induction earlier as [|providerId rest IH]; intros s; simpl.
  - done.
  - unfold bind.
    destruct (registerFeatureService _ _ _ s) as [[[]|e] s1]; [|done].
    apply IH.
Qed.
End RegistrationSteps.

Section RegistrationProperties.
Context `{Imports}.
Implicit Types (s : FeatureServiceRegistry).

Lemma map_has_createProviderDefinitionById
    (providerDefinitions : list FeatureServiceProviderDefinition) providerId :
  map_has providerId (createProviderDefinitionById providerDefinitions) = true
  <-> providerId
      ∈ (fun definition : FeatureServiceProviderDefinition => id definition)
        <$> providerDefinitions.
Proof.
  unfold createProviderDefinitionById, map_has.
  rewrite bool_decide_eq_true.
  assert (Hgen : forall acc : ProviderDefinitionsById,
    is_Some (obj_get providerId
               (foldl (fun byId (definition : FeatureServiceProviderDefinition) =>
                         map_set (id definition) definition byId)
                      acc providerDefinitions))
    <-> is_Some (obj_get providerId acc)
        \/ providerId
           ∈ (fun definition : FeatureServiceProviderDefinition => id definition)
             <$> providerDefinitions).
  { induction providerDefinitions as [|definition rest IH]; intros acc; simpl.
    - rewrite elem_of_nil. tauto.
    - rewrite IH. unfold map_set. rewrite obj_get_set, elem_of_cons.
      destruct (decide (providerId = id definition)) as [->|Hne].
      + split; [auto | eauto].
      + tauto. }
  rewrite Hgen. simpl. split; [|auto].
  intros [[? ?]|?]; done.
Qed.

(** C2: a provider whose [create] returns a version key that cannot be
    coerced is not stored: the registration throws the error naming the
    provider and the registering consumer, and the registry holds what it
    held after the providers registered before it in the same batch;
    with coercible keys only, the provider is stored. *)
Theorem invalid_version_not_committed
    providerDefinitions consumerId providerId earlier later
    s0 s definition binding s1 shared w2 :
  let byId := createProviderDefinitionById providerDefinitions in
  toposortDependencies (createDependencyGraph providerDefinitions)
  = Ok (earlier ++ providerId :: later) ->
  registerAll byId consumerId earlier s0 = (Ok tt, s) ->
  sharedFeatureServices s !! providerId = None ->
  map_get providerId byId = Some definition ->
  bindFeatureServices definition None s = (Ok binding, s1) ->
  create definition
    {| config := configs s ≫= (fun configs => configs !! providerId);
       env_featureServices := featureServices binding |} (world s1)
  = (Ok shared, w2) ->
  (Exists (fun version => coerce version = None) (Object_keys shared) ->
   exists s',
     registerFeatureService byId consumerId providerId s
     = (Throw (Error (featureServiceVersionInvalid providerId consumerId)), s')
     /\ registerFeatureServices providerDefinitions consumerId s0
        = (Throw (Error (featureServiceVersionInvalid providerId consumerId)), s')
     /\ sharedFeatureServices s' = sharedFeatureServices s
     /\ sharedFeatureServices s' !! providerId = None)
  /\ (Forall (fun version => is_Some (coerce version)) (Object_keys shared) ->
      exists s',
        registerFeatureService byId consumerId providerId s = (Ok tt, s')
        /\ sharedFeatureServices s'
           = <[providerId := shared]> (sharedFeatureServices s)).
Proof.
  intros byId Horder Hearlier Hp Hd Hb Hc.
  pose proof (registerFeatureService_new byId consumerId _ _ _ Hp Hd) as Hrun.
  rewrite Hb in Hrun. cbn zeta in Hrun. rewrite Hc in Hrun.
  apply bindFeatureServices_ok in Hb as (_ & _ & _ & Hs & _).
  split.
  - intros Hinvalid. rewrite decide_False in Hrun.
    2:{ intros Hall. apply Exists_exists in Hinvalid as (version & Hin & Hnone).
        rewrite Forall_forall in Hall. apply Hall in Hin.
        rewrite Hnone in Hin. by destruct Hin. }
    eexists. split; [exact Hrun|]. split; [|split].
    + unfold registerFeatureServices. rewrite Horder. fold byId.
      rewrite registerAll_app, Hearlier. cbn [registerAll]. unfold bind at 1.
      by rewrite Hrun.
    + done.
    + cbn. by rewrite Hs.
  - intros Hvalid. rewrite decide_True in Hrun by done.
    eexists. split; [exact Hrun|]. cbn. by rewrite Hs.
Qed.

(** C4: once a provider id is registered, registering it again warns
    (when the batch declares it) and goes on with the next provider; no
    later registration replaces the stored Feature Service or calls
    [create] for that id. *)
Theorem registered_at_most_once s providerId shared :
  sharedFeatureServices s !! providerId = Some shared ->
  (forall byId consumerId rest,
     map_has providerId byId = true ->
     registerAll byId consumerId (providerId :: rest) s
     = registerAll byId consumerId rest
         (add_event
            (ConsoleWarn (featureServiceAlreadyRegistered providerId consumerId))
            s))
  /\ (forall providerDefinitions consumerId r s',
        registerFeatureServices providerDefinitions consumerId s = (r, s') ->
        sharedFeatureServices s' !! providerId = Some shared
        /\ exists events,
             trace s' = trace s ++ events
             /\ Forall (fun e => is_CalledCreate providerId e = false) events)
  /\ (forall providerDefinitions consumerId earlier later s1,
        providerId
        ∈ (fun definition : FeatureServiceProviderDefinition => id definition)
          <$> providerDefinitions ->
        toposortDependencies (createDependencyGraph providerDefinitions)
        = Ok (earlier ++ providerId :: later) ->
        registerAll (createProviderDefinitionById providerDefinitions)
          consumerId earlier s = (Ok tt, s1) ->
        registerFeatureServices providerDefinitions consumerId s
        = registerAll (createProviderDefinitionById providerDefinitions)
            consumerId later
            (add_event
               (ConsoleWarn
                  (featureServiceAlreadyRegistered providerId consumerId))
               s1)).
Proof.
  intros Hp.
  assert (Hloop : forall byId consumerId rest s1,
    sharedFeatureServices s1 !! providerId = Some shared ->
    map_has providerId byId = true ->
    registerAll byId consumerId (providerId :: rest) s1
    = registerAll byId consumerId rest
        (add_event
           (ConsoleWarn (featureServiceAlreadyRegistered providerId consumerId))
           s1)).
  { intros byId consumerId rest s1 Hp1 Hhas. cbn [registerAll]. unfold bind at 1.
    by rewrite (registerFeatureService_registered _ _ _ _ _ Hp1), Hhas. }
  split; [|split].
  - intros byId consumerId rest. by apply Hloop.
  - intros providerDefinitions consumerId r s' Hrun.
    apply registerFeatureServices_step in Hrun
      as (Hkeep & _ & _ & _ & _ & _ & events & Ht & He).
    split; [by apply Hkeep|]. exists events. split; [done|].
    eapply Forall_impl; [exact He|]. intros e [_ Hcreate].
    apply Hcreate. rewrite Hp. eauto.
  - intros providerDefinitions consumerId earlier later s1 Hin Horder Hearlier.
    unfold registerFeatureServices. rewrite Horder.
    rewrite registerAll_app, Hearlier.
    apply registerAll_step in Hearlier as (Hkeep & _);
      [|apply createProviderDefinitionById_keyed].
    apply Hloop; [by apply Hkeep|].
    by apply map_has_createProviderDefinitionById.
Qed.
End RegistrationProperties.

Section CallerFacts.
Context `{Imports}.
Implicit Types (s : FeatureServiceRegistry) (caller : Caller).

Lemma newCaller_invariant configs w : caller_invariant (newCaller configs w).
Proof.
  split; cbn.
  - intros binding Hin. by apply elem_of_nil in Hin.
  - intros binding Hin. by apply elem_of_nil in Hin.
  - intros i j binding binding' Hi. by rewrite lookup_nil in Hi.
  - intros providerId [shared Hshared]. by rewrite lookup_empty in Hshared.
Qed.

(** An [unbind] that goes through changes the two collections as the
    closure says, and nothing else of the registry's own. *)
Lemma call_unbind_ok closure s :
  closure_unbound closure ∉ unboundCells s ->
  exists s',
    call_unbind closure s = (Ok tt, s')
    /\ sharedFeatureServices s' = sharedFeatureServices s
    /\ configs s' = configs s
    /\ consumerUids s' = consumerUids s ∖ {[closure_consumerUid closure]}
    /\ unboundCells s' = unboundCells s ∪ {[closure_unbound closure]}
    /\ nextCell s' = nextCell s.
Proof.
  intros Hcell. rewrite call_unbind_unfold, decide_False by done.
  rewrite unbindAll_teardown. eexists. split; [done|]. by cbn.
Qed.

Lemma call_unbind_again closure s :
  closure_unbound closure ∈ unboundCells s ->
  call_unbind closure s
  = (Throw (Error (featureServicesAlreadyUnbound (closure_consumerUid closure))), s).
Proof. intros Hcell. by rewrite call_unbind_unfold, decide_True. Qed.

Lemma registration_step_invariant caller s' :
  caller_invariant caller ->
  registration_step (registry caller) s' ->
  caller_invariant {| registry := s'; held := held caller |}.
Proof.
  intros [Halloc Hactive Hdistinct Hproviders]
         (Hkeep & Hgrow & _ & Hnext & Hflags & Hnew & _).
  assert (Hflag : forall binding, binding ∈ held caller ->
            unbound_in s' binding <-> unbound_in (registry caller) binding).
  { intros binding Hin. apply Hflags. by apply Halloc. }
  split; cbn.
  - intros binding Hin. specialize (Halloc _ Hin). lia.
  - intros binding Hin Hlive. apply Hgrow, Hactive; [done|].
    by rewrite <- Hflag.
  - intros i j binding binding' Hi Hj Hij Hlive Hlive'.
    apply (Hdistinct i j); try done.
    + rewrite <- Hflag; [done|]. by eapply list_elem_of_lookup_2.
    + rewrite <- Hflag; [done|]. by eapply list_elem_of_lookup_2.
  - intros providerId Hstored.
    destruct (sharedFeatureServices (registry caller) !! providerId)
      as [shared|] eqn:Hold.
    + destruct (Hproviders providerId) as [Hin Hheld]; [eauto|].
      split; [by apply Hgrow|]. intros binding Hb Huid.
      apply Hflag; [done|]. by apply Hheld.
    + destruct (Hnew providerId Hstored Hold) as [Hin Hfree].
      split; [done|]. intros binding Hb Huid. apply Hflag; [done|].
      destruct (decide (closure_unbound (unbindFeatureServices binding)
                        ∈ unboundCells (registry caller))) as [|Hlive];
        [done|].
      exfalso. apply Hfree. rewrite <- Huid. by apply Hactive.
Qed.

Lemma same_collections_invariant caller s' :
  caller_invariant caller ->
  same_collections (registry caller) s' ->
  caller_invariant {| registry := s'; held := held caller |}.
Proof.
  intros [Halloc Hactive Hdistinct Hproviders] (Hs & Hu & _ & Hcells & Hnext).
  split; cbn; unfold unbound_in in *; rewrite ?Hs, ?Hu, ?Hcells, ?Hnext; auto.
Qed.

(** Every call of the API keeps the invariant. *)
Lemma api_call_invariant call caller :
  caller_invariant caller -> caller_invariant (api_call call caller).2.
Proof.
  intros Hinv. destruct call as [providerDefinitions consumerId
                                | consumerDefinition specifier | n];
    cbn [api_call].
  - destruct (registerFeatureServices _ _ _) as [r s'] eqn:E. cbn [snd registry].
    apply registration_step_invariant; [done|].
    by eapply registerFeatureServices_step.
  - destruct (bindFeatureServices _ _ _) as [[binding|e] s'] eqn:E;
      cbn [snd registry].
    2:{ apply same_collections_invariant; [done|].
        by apply bindFeatureServices_throw in E as [? _]. }
    apply bindFeatureServices_ok in E
      as (Hfree & Huid & Hcell & Hs & _ & Hu & Hcells & Hnext & _).
    destruct Hinv as [Halloc Hactive Hdistinct Hproviders].
    assert (Hflag : forall old, old ∈ held caller ->
              unbound_in s' old <-> unbound_in (registry caller) old).
    { intros old Hin. unfold unbound_in. rewrite Hcells.
      apply older_cell_untouched. by apply Halloc. }
    assert (Hfresh : ~ unbound_in s' binding).
    { unfold unbound_in. rewrite Hcells, Hcell.
      rewrite elem_of_difference, elem_of_singleton. tauto. }
    split; cbn.
    + intros b [Hin| ->%list_elem_of_singleton]%elem_of_app.
      * specialize (Halloc _ Hin). lia.
      * lia.
    + intros b [Hin| ->%list_elem_of_singleton]%elem_of_app Hlive.
      * rewrite Hu. apply elem_of_union_r, Hactive; [done|].
        by rewrite <- Hflag.
      * rewrite Hu. apply elem_of_union_l, elem_of_singleton. exact Huid.
    + intros i j b b' Hi Hj Hij Hlive Hlive'.
      apply lookup_app_Some in Hi as [Hi|[Hilen Hi]];
        apply lookup_app_Some in Hj as [Hj|[Hjlen Hj]].
      * apply (Hdistinct i j); try done.
        -- rewrite <- Hflag; [done|]. by eapply list_elem_of_lookup_2.
        -- rewrite <- Hflag; [done|]. by eapply list_elem_of_lookup_2.
      * apply list_lookup_singleton_Some in Hj as [_ <-].
        assert (Hin : b ∈ held caller) by (by eapply list_elem_of_lookup_2).
        intros Heq. apply Hfree. fold (uid_of binding) in Huid.
        rewrite <- Huid, <- Heq. apply Hactive; [done|]. by rewrite <- Hflag.
      * apply list_lookup_singleton_Some in Hi as [_ <-].
        assert (Hin : b' ∈ held caller) by (by eapply list_elem_of_lookup_2).
        intros Heq. apply Hfree. fold (uid_of binding) in Huid.
        rewrite <- Huid, Heq. apply Hactive; [done|]. by rewrite <- Hflag.
      * apply list_lookup_singleton_Some in Hi as [Hi0 _].
        apply list_lookup_singleton_Some in Hj as [Hj0 _]. lia.
    + rewrite Hs. intros providerId Hstored.
      destruct (Hproviders providerId Hstored) as [Hin Hheld].
      split; [rewrite Hu; by apply elem_of_union_r|].
      intros b [Hb| ->%list_elem_of_singleton]%elem_of_app Hsame.
      * apply Hflag; [done|]. by apply Hheld.
      * exfalso. apply Hfree. fold (uid_of binding) in Huid.
        by rewrite <- Huid, Hsame.
  - destruct (held caller !! n) as [binding|] eqn:Hn; [|done].
    destruct (decide (closure_unbound (unbindFeatureServices binding)
                      ∈ unboundCells (registry caller))) as [Hdone|Hlive].
    { rewrite call_unbind_again by done. by destruct caller. }
    destruct (call_unbind_ok _ _ Hlive)
      as (s' & -> & Hs & _ & Hu & Hcells & Hnext).
    cbn. destruct Hinv as [Halloc Hactive Hdistinct Hproviders].
    assert (Hflag : forall other, unbound_in (registry caller) other ->
                                  unbound_in s' other).
    { intros other. unfold unbound_in. rewrite Hcells. apply elem_of_union_l. }
    assert (Hunflag : forall other, ~ unbound_in s' other ->
              ~ unbound_in (registry caller) other
              /\ closure_unbound (unbindFeatureServices other)
                 <> closure_unbound (unbindFeatureServices binding)).
    { intros other. unfold unbound_in. rewrite Hcells.
      rewrite elem_of_union, elem_of_singleton. tauto. }
    split; cbn.
    + intros b Hin. rewrite Hnext. by apply Halloc.
    + intros b Hin [Hlive' Hother]%Hunflag. rewrite Hu.
      apply elem_of_difference. split; [by apply Hactive|].
      rewrite elem_of_singleton.
      apply list_elem_of_lookup in Hin as [i Hi].
      apply (Hdistinct i n); try done. intros ->. congruence.
    + intros i j b b' Hi Hj Hij [Hl _]%Hunflag [Hl' _]%Hunflag.
      by apply (Hdistinct i j).
    + rewrite Hs. intros providerId Hstored.
      destruct (Hproviders providerId Hstored) as [Hin Hheld].
      split.
      * rewrite Hu. apply elem_of_difference. split; [done|].
        rewrite elem_of_singleton. intros Heq. apply Hlive.
        apply Hheld; [by eapply list_elem_of_lookup_2 | done].
      * intros b Hb Hsame. apply Hflag. by apply Hheld.
Qed.

Lemma api_calls_invariant calls caller :
  caller_invariant caller -> caller_invariant (api_calls calls caller).
Proof.
  revert caller. induction calls as [|call calls IH]; intros caller Hinv.
  - done.
  - cbn. apply IH. by apply api_call_invariant.
Qed.

(** A flag that is set stays set, whatever is called next. *)
Lemma api_call_keeps_flag call caller cell :
  cell < nextCell (registry caller) ->
  cell ∈ unboundCells (registry caller) ->
  cell < nextCell (registry (api_call call caller).2)
  /\ cell ∈ unboundCells (registry (api_call call caller).2).
Proof.
  intros Hlt Hset. destruct call as [providerDefinitions consumerId
                                    | consumerDefinition specifier | n];
    cbn [api_call].
  - destruct (registerFeatureServices _ _ _) as [r s'] eqn:E. cbn [snd registry].
    apply registerFeatureServices_step in E
      as (_ & _ & _ & Hnext & Hflags & _).
    split; [lia|]. by apply Hflags.
  - destruct (bindFeatureServices _ _ _) as [[binding|e] s'] eqn:E;
      cbn [snd registry].
    + apply bindFeatureServices_ok in E
        as (_ & _ & _ & _ & _ & _ & Hcells & Hnext & _).
      rewrite Hcells, Hnext. split; [lia|]. by apply older_cell_untouched.
    + apply bindFeatureServices_throw in E as [(_ & _ & _ & Hcells & Hnext) _].
      by rewrite Hcells, Hnext.
  - destruct (held caller !! n) as [binding|]; [|done].
    destruct (decide (closure_unbound (unbindFeatureServices binding)
                      ∈ unboundCells (registry caller))) as [Hdone|Hlive].
    + by rewrite call_unbind_again.
    + destruct (call_unbind_ok _ _ Hlive) as (s' & -> & _ & _ & _ & Hcells & Hnext).
      cbn. rewrite Hcells, Hnext. split; [done|]. by apply elem_of_union_l.
Qed.

Lemma api_calls_keep_flag calls caller cell :
  cell < nextCell (registry caller) ->
  cell ∈ unboundCells (registry caller) ->
  cell ∈ unboundCells (registry (api_calls calls caller)).
Proof.
  revert caller. induction calls as [|call calls IH]; intros caller Hlt Hset.
  - done.
  - cbn. destruct (api_call_keeps_flag call caller cell Hlt Hset). by apply IH.
Qed.
End CallerFacts.

Section CallerProperties.
Context `{Imports}.
Implicit Types (s : FeatureServiceRegistry) (caller : Caller).

(** C3: while a consumer uid is in the active set, binding it again
    throws; the [unbind] returned by a bind goes through once, removing
    the uid, after which the consumer can be bound again as soon as its
    dependencies resolve, and every later call of that [unbind], whatever
    was called in between, throws. *)
Theorem bound_at_most_once consumerDefinition specifier s binding s1 :
  bindFeatureServices consumerDefinition specifier s = (Ok binding, s1) ->
  let consumerUid := createUid (id consumerDefinition) specifier in
  let closure := unbindFeatureServices binding in
  let deps := default [] (dependencies consumerDefinition) in
  let allDeps :=
    spread (default [] (optionalDependencies consumerDefinition)) deps in
  consumerUid ∈ consumerUids s1
  /\ (forall s' definition' specifier',
        createUid (id definition') specifier' = consumerUid ->
        consumerUid ∈ consumerUids s' ->
        bindFeatureServices definition' specifier' s'
        = (Throw (Error (featureServicesAlreadyBound consumerUid)), s'))
  /\ exists s2,
       call_unbind closure s1 = (Ok tt, s2)
       /\ (consumerUid ∉ consumerUids s2)
       /\ (forall bindings fs s3,
             bindAll deps allDeps consumerUid (Object_keys allDeps) [] [] s2
             = (Ok (bindings, fs), s3) ->
             exists binding' s4,
               bindFeatureServices consumerDefinition specifier s2
               = (Ok binding', s4)
               /\ featureServices binding' = fs)
       /\ (forall held calls,
             let later :=
               registry (api_calls calls {| registry := s2; held := held |}) in
             call_unbind closure later
             = (Throw (Error (featureServicesAlreadyUnbound consumerUid)), later)).
Proof.
  intros Hbind consumerUid closure deps allDeps.
  apply bindFeatureServices_ok in Hbind
    as (Hfree & Huid & Hcell & _ & _ & Hu & Hcells & Hnext & _).
  fold consumerUid closure in Huid, Hu, Hfree. fold closure in Hcell.
  split; [rewrite Hu; apply elem_of_union_l; by apply elem_of_singleton|].
  split.
  { intros s' definition' specifier' <- Hin.
    by apply bindFeatureServices_already_bound. }
  destruct (call_unbind_ok closure s1)
    as (s2 & Hrun & _ & _ & Hu2 & Hcells2 & Hnext2).
  { rewrite Hcells, Hcell, elem_of_difference, elem_of_singleton. tauto. }
  exists s2. split; [done|].
  assert (Hgone : consumerUid ∉ consumerUids s2).
  { rewrite Hu2, Huid, elem_of_difference, elem_of_singleton. tauto. }
  split; [done|]. split.
  - intros bindings fs s3 Hall. rewrite bindFeatureServices_unfold.
    fold consumerUid deps allDeps. rewrite decide_False by done.
    rewrite Hall. eauto.
  - intros held calls later. rewrite <- Huid.
    apply call_unbind_again. apply api_calls_keep_flag; cbn.
    + rewrite Hnext2, Hnext, Hcell. lia.
    + rewrite Hcells2. apply elem_of_union_r. by apply elem_of_singleton.
Qed.

(** C10: in every state reached by calls of the API on a new registry, a
    registered provider has its own uid (its id, no specifier) in the
    active set, so that binding a consumer with that id and no specifier
    throws the duplicate-bind error; and a bind that throws leaves the
    active set as it was, invokes no [unbind] callback, and hands no
    binding to the caller. *)
Theorem provider_stays_bound configs w calls providerId :
  let caller := api_calls calls (newCaller configs w) in
  is_Some (sharedFeatureServices (registry caller) !! providerId) ->
  createUid providerId None ∈ consumerUids (registry caller)
  /\ (forall definition,
        id definition = providerId ->
        bindFeatureServices definition None (registry caller)
        = (Throw (Error (featureServicesAlreadyBound (createUid providerId None))),
           registry caller))
  /\ (forall caller' definition specifier e s',
        bindFeatureServices definition specifier (registry caller') = (Throw e, s') ->
        consumerUids s' = consumerUids (registry caller')
        /\ (exists events,
              trace s' = trace (registry caller') ++ events
              /\ Forall (fun event => is_CalledUnbind event = false) events)
        /\ held (api_call (Bind definition specifier) caller').2 = held caller').
Proof.
  intros caller Hstored.
  assert (Hinv : caller_invariant caller)
    by apply api_calls_invariant, newCaller_invariant.
  destruct (providers_bound _ Hinv providerId Hstored) as [Hin _].
  split; [done|]. split.
  - intros definition <-. by apply bindFeatureServices_already_bound.
  - intros caller' definition specifier e s' Hthrow.
    cbn [api_call]. rewrite Hthrow. cbn.
    apply bindFeatureServices_throw in Hthrow
      as [(_ & Hu & _) (events & Ht & He)].
    split; [done|]. split; [|done].
    exists events. split; [done|]. apply Forall_forall. intros event Hev.
    rewrite forallb_forall in He.
    apply binding_event_registration, He. by apply list_elem_of_In.
Qed.
End CallerProperties.

(** ** The async SSR manager *)
Section Rendering.
Import AsyncSsrManager.
Context {State Err : Type}.
Implicit Types (render : RenderFn State Err) (st : State).

Lemma settle_fulfilled (delays : list nat) :
  settle (Err := Err) (Fulfils <$> delays) = AllFulfilled (foldr max 0 delays).
Proof.
  induction delays as [|delay delays IH]; [done|].
  cbn [fmap list_fmap settle foldr]. fold (fmap (M := list) (@Fulfils Err)).
  by rewrite IH.
Qed.

Lemma settle_resolved (pending : list (Promise Err)) :
  Forall (fun promise => promise = Fulfils 0) pending ->
  settle pending = AllFulfilled 0.
Proof.
  induction 1 as [|promise pending -> _ IH]; [done|].
  cbn [settle]. by rewrite IH.
Qed.

(** C5: a render function that never calls [rerenderAfter] is invoked
    once and its return value is the result; one that, in its first
    invocation only, hands over already resolved promises (one, or one
    per consumer) is invoked exactly twice, the result being the value of
    the second pass; and every promise handed over during a pass is
    awaited. *)
Theorem render_until_no_rerender timeout render st :
  (forall html st1 fuel,
     render st = ({| rendered := Returns html; rerenderAfter := [] |}, st1) ->
     renderUntilCompleted (S fuel) timeout render st
     = {| completion := Done html; invocations := 1; elapsed := 0 |})
  /\ (forall html1 pending st1 html2 st2 fuel,
        pending <> [] ->
        Forall (fun promise => promise = Fulfils 0) pending ->
        render st
        = ({| rendered := Returns html1; rerenderAfter := pending |}, st1) ->
        render st1
        = ({| rendered := Returns html2; rerenderAfter := [] |}, st2) ->
        renderUntilCompleted (S (S fuel)) timeout render st
        = {| completion := Done html2; invocations := 2; elapsed := 0 |})
  /\ (forall delays : list nat,
        settle (Err := Err) (Fulfils <$> delays)
        = AllFulfilled (foldr max 0 delays)).
Proof.
  split; [|split].
  - intros html st1 fuel Hpass. unfold renderUntilCompleted.
    cbn [renderingLoop]. by rewrite Hpass.
  - intros html1 pending st1 html2 st2 fuel Hsome Hresolved Hfirst Hsecond.
    unfold renderUntilCompleted. cbn [renderingLoop]. rewrite Hfirst.
    cbn [rendered rerenderAfter].
    pose proof (settle_resolved _ Hresolved) as Hsettle.
    destruct pending as [|promise pending]; [done|]. rewrite Hsettle.
    assert (Hlive : expired (configured timeout) (0 + 0) = false).
    { destruct timeout as [[|limit]|]; done. }
    rewrite Hlive, Hsecond. done.
  - apply settle_fulfilled.
Qed.

Lemma renderingLoop_untimed_grows fuel render st now count :
  now <= elapsed (renderingLoop fuel None render st now count)
  /\ count <= invocations (renderingLoop fuel None render st now count).
Proof.
  revert st now count. induction fuel as [|fuel IH]; intros st now count.
  - cbn. lia.
  - cbn [renderingLoop]. destruct (render st) as [[[html|error] pending] st'];
      cbn [rendered rerenderAfter]; [|cbn; lia].
    destruct pending as [|promise pending]; [cbn; lia|].
    destruct (settle (promise :: pending)) as [after|after reason|];
      cbn [expired].
    + destruct (IH st' (now + after) (S count)). lia.
    + cbn. lia.
    + cbn. lia.
Qed.

(** The run with a timeout, compared with the run without: the same
    when the latter completes in time, the timeout error when it does
    not. *)
Lemma renderingLoop_timeout limit fuel render st now count :
  now <= limit ->
  let untimed := renderingLoop fuel None render st now count in
  let timed := renderingLoop fuel (Some limit) render st now count in
  completion untimed <> MorePasses ->
  (completion untimed = Unsettled \/ limit < elapsed untimed ->
   completion timed = Failed (Timeout limit)
   /\ elapsed timed = limit
   /\ invocations timed <= invocations untimed)
  /\ (completion untimed <> Unsettled -> elapsed untimed <= limit ->
      timed = untimed).
Proof.
  revert st now count. induction fuel as [|fuel IH]; intros st now count Hnow.
  { cbn. done. }
  cbn [renderingLoop]. destruct (render st) as [[[html|error] pending] st'];
    cbn [rendered rerenderAfter].
  2:{ cbn. intros _. split; [|done]. intros [?|?]; [done | lia]. }
  destruct pending as [|promise pending].
  { cbn. intros _. split; [|done]. intros [?|?]; [done | lia]. }
  destruct (settle (promise :: pending)) as [after|after reason|];
    cbn [expired default].
  - destruct (limit <? now + after)%nat eqn:Hlate.
    + apply Nat.ltb_lt in Hlate. intros Hdone.
      destruct (renderingLoop_untimed_grows fuel render st' (now + after) (S count))
        as [Helapsed Hcount].
      split.
      * intros _. cbn. repeat split; lia.
      * intros _ Hin. lia.
    + apply Nat.ltb_ge in Hlate. by apply IH.
  - destruct (limit <? now + after)%nat eqn:Hlate.
    + apply Nat.ltb_lt in Hlate. cbn. intros _. split.
      * intros _. repeat split; lia.
      * intros _ Hin. lia.
    + apply Nat.ltb_ge in Hlate. cbn. intros _. split; [|done].
      intros [?|?]; [done | lia].
  - cbn. intros _. split; [|done]. intros _. repeat split; lia.
Qed.

(** C6: one timeout bounds the whole operation, however many passes it
    takes: when the operation without timeout would not complete within
    the configured duration, the operation fails with the timeout error
    at that time; and when the promise handed over in the first pass
    settles after the timeout or never, that is the outcome after exactly
    one invocation of the render function. *)
Theorem single_timeout limit render st :
  0 < limit ->
  (forall fuel,
     let untimed := renderUntilCompleted fuel None render st in
     let timed := renderUntilCompleted fuel (Some limit) render st in
     completion untimed <> MorePasses ->
     (completion untimed = Unsettled \/ limit < elapsed untimed ->
      completion timed = Failed (Timeout limit)
      /\ elapsed timed = limit
      /\ invocations timed <= invocations untimed)
     /\ (completion untimed <> Unsettled -> elapsed untimed <= limit ->
         timed = untimed))
  /\ (forall html pending st1 fuel,
        render st
        = ({| rendered := Returns html; rerenderAfter := pending |}, st1) ->
        settle pending = NeverSettled
        \/ (exists after, settle pending = AllFulfilled after /\ limit < after) ->
        renderUntilCompleted (S fuel) (Some limit) render st
        = {| completion := Failed (Timeout limit); invocations := 1;
             elapsed := limit |}).
Proof.
  intros Hpositive.
  assert (Hconfigured : configured (Some limit) = Some limit).
  { unfold configured. by rewrite (proj2 (Nat.ltb_lt 0 limit) Hpositive). }
  split.
  - intros fuel. unfold renderUntilCompleted. rewrite Hconfigured. cbn [configured].
    apply renderingLoop_timeout. lia.
  - intros html pending st1 fuel Hpass Hpending.
    unfold renderUntilCompleted. rewrite Hconfigured.
    cbn [renderingLoop]. rewrite Hpass. cbn [rendered rerenderAfter].
    destruct pending as [|promise pending].
    { destruct Hpending as [?|(after & [= <-] & ?)]; [done | lia]. }
    destruct Hpending as [->|(after & -> & Hlate)]; [done|].
    cbn [expired default]. by rewrite (proj2 (Nat.ltb_lt limit (0 + after)) Hlate).
Qed.
End Rendering.

Section RenderingConcrete.
Import AsyncSsrManager.

Lemma render_until_no_rerender_witness :
  renderUntilCompleted 5 (Some 5) mockRender tt
  = {| completion := Done "testHtml"; invocations := 1; elapsed := 0 |}
  /\ renderUntilCompleted 5 (Some 5) mockRender1 true
     = {| completion := Done "testHtml"; invocations := 2; elapsed := 0 |}
  /\ renderUntilCompleted 5 (Some 5) mockRender2 (true, true)
     = {| completion := Done "testHtml"; invocations := 2; elapsed := 0 |}.
Proof.
  split; [|split].
  - exact (proj1 (render_until_no_rerender (Some 5) mockRender tt)
             "testHtml" tt 4 eq_refl).
  - refine (proj1 (proj2 (render_until_no_rerender (Some 5) mockRender1 true))
              "testHtml" [Fulfils 0] false "testHtml" false 3 _ _ eq_refl eq_refl).
    + discriminate.
    + repeat constructor.
  - refine (proj1 (proj2 (render_until_no_rerender (Some 5) mockRender2 (true, true)))
              "testHtml" [Fulfils 0; Fulfils 0] (false, false) "testHtml"
              (false, false) 3 _ _ eq_refl eq_refl).
    + discriminate.
    + repeat constructor.
Defined.

Lemma single_timeout_witness :
  renderUntilCompleted 5 (Some 5) mockRenderPending tt
  = {| completion := Failed (Timeout 5); invocations := 1; elapsed := 5 |}
  /\ completion (renderUntilCompleted 5 None mockRenderSlow 0) = Done "testHtml"
  /\ elapsed (renderUntilCompleted 5 None mockRenderSlow 0) = 6
  /\ renderUntilCompleted 5 (Some 5) mockRenderSlow 0
     = {| completion := Failed (Timeout 5); invocations := 2; elapsed := 5 |}.
Proof.
  destruct (single_timeout (Err := string) 5 mockRenderPending tt) as [_ Hfirst];
    [lia|].
  destruct (single_timeout (Err := string) 5 mockRenderSlow 0) as [Hwhole _];
    [lia|].
  split; [|split; [|split]].
  - apply (Hfirst "testHtml" [Pending] tt 4 eq_refl). by left.
  - reflexivity.
  - reflexivity.
  - destruct (Hwhole 5) as [Hlate _]; [discriminate|].
    destruct Hlate as (Hcompletion & Helapsed & Hcount); [right; cbn; lia|].
    reflexivity.
Defined.
End RenderingConcrete.

(** ** Concrete runs *)
Section Concrete.
#[local] Existing Instance node.

Lemma unresolved_dependency_witness :
  bindFeatureService "svc" "app" (Some "^3.0") false
    (Samples.registryWith "svc" Samples.v1_then_v2)
  = (Throw (Error (featureServiceUnsupported false "svc" "app" "^3.0"
                     ["1.0.0"; "2.0.0"])),
     Samples.registryWith "svc" Samples.v1_then_v2).
Proof.
  assert (Hall : Forall (fun version => satisfies (coerce version) "^3.0" = false)
                        (Object_keys Samples.v1_then_v2))
    by (repeat constructor).
  exact (proj1 (unresolved_dependency
                  (Samples.registryWith "svc" Samples.v1_then_v2)
                  "svc" (Some "^3.0") _
                  (NoVersionSatisfies
                     (sharedFeatureServices
                        (Samples.registryWith "svc" Samples.v1_then_v2))
                     "svc" (Some "^3.0") "^3.0"
                     Samples.v1_then_v2 eq_refl eq_refl Hall)) "app").
Defined.

Lemma required_wins_over_optional_witness :
  let definition :=
    Samples.consumer "app" (Some [("svc", Some "^3.0")])
                           (Some [("svc", Some "^1.0")]) in
  obj_get "svc" (spread [("svc", Some "^1.0")] [("svc", Some "^3.0")])
  = Some (Some "^3.0")
  /\ exists e s',
       bindFeatureServices definition None
         (Samples.registryWith "svc" Samples.v1_then_v2) = (Throw e, s').
Proof.
  intros definition.
  destruct (required_wins_over_optional definition "svc" eq_refl eq_refl)
    as (Hrange & _ & Hfatal).
  split; [exact Hrange|].
  assert (Hall : Forall (fun version => satisfies (coerce version) "^3.0" = false)
                        (Object_keys Samples.v1_then_v2))
    by (repeat constructor).
  exact (proj2 (Hfatal (Samples.registryWith "svc" Samples.v1_then_v2) _
                  (NoVersionSatisfies
                     (sharedFeatureServices
                        (Samples.registryWith "svc" Samples.v1_then_v2))
                     "svc" (Some "^3.0") "^3.0"
                     Samples.v1_then_v2 eq_refl eq_refl Hall)) None).
Defined.

Lemma unbind_isolates_teardown_witness :
  exists s',
    call_unbind Samples.two_bindings Samples.empty = (Ok tt, s')
    /\ world s' = ["unbind failing"; "unbind v1"]
    /\ trace s'
       = [CalledUnbind "failing" "app";
          ConsoleError (featureServiceCouldNotBeUnbound "failing" "app")
            (Thrown "teardown of failing");
          CalledUnbind "good" "app";
          ConsoleInfo (featureServiceSuccessfullyUnbound "good" "app")].
Proof.
  destruct (unbind_isolates_teardown Samples.two_bindings Samples.empty)
    as (s' & Hrun & Hworld & Htrace & _).
  { apply not_elem_of_empty. }
  exists s'. split; [exact Hrun|]. split.
  - rewrite Hworld. reflexivity.
  - rewrite Htrace. reflexivity.
Defined.

Lemma invalid_version_not_committed_witness :
  exists s',
    registerFeatureServices [Samples.bad; Samples.good] "integrator" Samples.empty
    = (Throw (Error (featureServiceVersionInvalid "bad" "integrator")), s')
    /\ sharedFeatureServices s' !! "good" = Some Samples.v1_then_v2
    /\ sharedFeatureServices s' !! "bad" = None.
Proof.
  pose (byId := createProviderDefinitionById [Samples.bad; Samples.good]).
  let after_good :=
    eval vm_compute in (registerAll byId "integrator" ["good"] Samples.empty).2 in
  pose (s := after_good).
  let bound := eval vm_compute in (bindFeatureServices Samples.bad None s) in
  match bound with
  | (Ok ?binding, ?s1) =>
      destruct (invalid_version_not_committed
                  [Samples.bad; Samples.good] "integrator" "bad" ["good"] []
                  Samples.empty s Samples.bad binding s1
                  [("1.0.0", Some (Samples.binderOf "bad1"));
                   ("latest", Some (Samples.binderOf "bad2"))]
                  (world s1 ++ ["create bad"]))
        as [Hinvalid _]
  end.
  1-6: reflexivity.
  destruct Hinvalid as (s' & _ & Hrun & Hsame & Hbad).
  { apply Exists_cons_tl, Exists_cons_hd. reflexivity. }
  exists s'. split; [exact Hrun|]. split; [|exact Hbad].
  rewrite Hsame. reflexivity.
Defined.

Lemma registered_at_most_once_witness :
  let s := (registerFeatureServices [Samples.good] "integrator" Samples.empty).2 in
  exists s',
    registerFeatureServices [Samples.good_again] "app" s = (Ok tt, s')
    /\ sharedFeatureServices s' !! "good" = Some Samples.v1_then_v2
    /\ trace s'
       = trace s ++ [ConsoleWarn (featureServiceAlreadyRegistered "good" "app")].
Proof.
  intros s.
  destruct (registered_at_most_once s "good" Samples.v1_then_v2 eq_refl)
    as (_ & Hkeep & Hwarn).
  specialize (Hwarn [Samples.good_again] "app" [] [] s).
  assert (Hrun :
    registerFeatureServices [Samples.good_again] "app" s
    = (Ok tt,
       add_event (ConsoleWarn (featureServiceAlreadyRegistered "good" "app")) s)).
  { rewrite Hwarn; [reflexivity | constructor | reflexivity | reflexivity]. }
  eexists. split; [exact Hrun|]. split.
  - exact (proj1 (Hkeep _ _ _ _ Hrun)).
  - reflexivity.
Defined.
Lemma bound_at_most_once_witness :
  let s := (registerFeatureServices [Samples.good] "integrator" Samples.empty).2 in
  let app := Samples.consumer "app" (Some [("good", Some "^1.0")]) None in
  exists binding s1 s2 binding' s3,
    bindFeatureServices app None s = (Ok binding, s1)
    /\ bindFeatureServices app None s1
       = (Throw (Error (featureServicesAlreadyBound "app")), s1)
    /\ call_unbind (unbindFeatureServices binding) s1 = (Ok tt, s2)
    /\ call_unbind (unbindFeatureServices binding) s2
       = (Throw (Error (featureServicesAlreadyUnbound "app")), s2)
    /\ bindFeatureServices app None s2 = (Ok binding', s3).
Proof.
  intros s app.
  let bound := eval vm_compute in (bindFeatureServices app None s) in
  match bound with
  | (Ok ?b, ?s1') => pose (binding := b); pose (s1 := s1')
  end.
  destruct (bound_at_most_once app None s binding s1 eq_refl)
    as (Hactive & Hagain & s2 & Hunbind & Hgone & Hrebind & Hlater).
  exists binding, s1.
  assert (Hs2 : s2 = (call_unbind (unbindFeatureServices binding) s1).2)
    by (by rewrite Hunbind).
  subst s2.
  set (s2 := (call_unbind (unbindFeatureServices binding) s1).2) in *.
  let deps := constr:([("good", Some "^1.0")] : FeatureServiceConsumerDependencies) in
  let rebound :=
    eval vm_compute in
      (bindAll deps (spread [] deps) "app" (Object_keys (spread [] deps)) [] [] s2) in
  match rebound with
  | (Ok (?bindings, ?fs), ?s3) =>
      destruct (Hrebind bindings fs s3 eq_refl) as (binding' & s4 & Hbound & _)
  end.
  exists s2, binding', s4.
  split; [reflexivity|]. split; [by apply Hagain|]. split; [exact Hunbind|].
  split; [exact (Hlater [] [])|]. exact Hbound.
Defined.

Lemma provider_stays_bound_witness :
  let caller :=
    api_calls [Register [Samples.good] "integrator"] (newCaller None []) in
  bindFeatureServices (Samples.consumer "good" None None) None (registry caller)
  = (Throw (Error (featureServicesAlreadyBound "good")), registry caller)
  /\ exists s',
       bindFeatureServices
         (Samples.consumer "app"
            (Some [("good", Some "^1.0"); ("missing", Some "^1.0")]) None)
         None (registry caller)
       = (Throw (Error (featureServiceNotRegistered false "missing" "app")), s')
       /\ consumerUids s' = consumerUids (registry caller)
       /\ world s' = ["create good"; "bind v1 to app"].
Proof.
  intros caller.
  destruct (provider_stays_bound (H := node) None []
              [Register [Samples.good] "integrator"] "good")
    as (_ & Hthrows & Hleak).
  { by eexists. }
  split; [by apply Hthrows|].
  set (app := Samples.consumer "app"
                (Some [("good", Some "^1.0"); ("missing", Some "^1.0")]) None).
  let thrown := eval vm_compute in (bindFeatureServices app None (registry caller)) in
  match thrown with
  | (_, ?s1) => pose (s' := s1)
  end.
  exists s'.
  assert (Hrun :
    bindFeatureServices app None (registry caller)
    = (Throw (Error (featureServiceNotRegistered false "missing" "app")), s'))
    by reflexivity.
  split; [exact Hrun|]. split; [|reflexivity].
  exact (proj1 (Hleak caller app None _ _ Hrun)).
Defined.
End Concrete.

(** ** More about the registry *)
Section StoredVersions.
Context `{Imports}.
Implicit Types (s : FeatureServiceRegistry) (caller : Caller).

Lemma versions_coercible_same s s' :
  sharedFeatureServices s' = sharedFeatureServices s ->
  versions_coercible s -> versions_coercible s'.
Proof. unfold versions_coercible. by intros ->. Qed.

Lemma registerFeatureService_versions byId consumerId providerId s r s' :
  registerFeatureService byId consumerId providerId s = (r, s') ->
  versions_coercible s -> versions_coercible s'.
Proof.
  destruct (sharedFeatureServices s !! providerId) as [shared|] eqn:Hp.
  { rewrite (registerFeatureService_registered _ _ _ _ _ Hp).
    intros [= <- <-]. by destruct (map_has providerId byId). }
  destruct (map_get providerId byId) as [definition|] eqn:Hd.
  2:{ rewrite registerFeatureService_unknown by done. by intros [= <- <-]. }
  rewrite (registerFeatureService_new _ _ _ _ _ Hp Hd).
  destruct (bindFeatureServices definition None s) as [[binding|e] s1] eqn:Hb.
  2:{ intros [= <- <-]. apply bindFeatureServices_throw in Hb as [(Hs & _) _].
      by apply versions_coercible_same. }
  apply bindFeatureServices_ok in Hb as (_ & _ & _ & Hs & _).
  cbn zeta.
  match goal with
  | |- context [create definition ?env (world s1)] =>
      destruct (create definition env (world s1)) as [[shared|e] w2]
  end.
  2:{ intros [= <- <-]. by apply versions_coercible_same. }
  destruct (decide _) as [Hvalid|Hinvalid]; intros [= <- <-].
  - intros Hold p shared'. cbn. rewrite Hs.
    destruct (decide (p = providerId)) as [->|Hne].
    + rewrite lookup_insert_eq. by intros [= <-].
    + rewrite lookup_insert_ne by done. apply Hold.
  - by apply versions_coercible_same.
Qed.

Lemma registerAll_versions byId consumerId providerIds s r s' :
  registerAll byId consumerId providerIds s = (r, s') ->
  versions_coercible s -> versions_coercible s'.
Proof.
  revert s. induction providerIds as [|providerId rest IH]; intros s; simpl.
  - by intros [= <- <-].
  - unfold bind at 1.
    destruct (registerFeatureService _ _ _ s) as [[[]|e] s1] eqn:E.
    + intros Hrest Hs. eapply IH; [done|].
      by eapply registerFeatureService_versions.
    + intros [= <- <-]. by eapply registerFeatureService_versions.
Qed.

Lemma api_call_versions call caller :
  versions_coercible (registry caller) ->
  versions_coercible (registry (api_call call caller).2).
Proof.
  intros Hinv. destruct call as [providerDefinitions consumerId
                                | consumerDefinition specifier | n];
    cbn [api_call].
  - destruct (registerFeatureServices _ _ _) as [r s'] eqn:E. cbn [snd registry].
    unfold registerFeatureServices in E.
    destruct (toposortDependencies _) as [providerIds|e].
    + by eapply registerAll_versions.
    + by injection E as <- <-.
  - destruct (bindFeatureServices _ _ _) as [[binding|e] s'] eqn:E;
      cbn [snd registry].
    + apply bindFeatureServices_ok in E as (_ & _ & _ & Hs & _).
      by apply (versions_coercible_same (registry caller)).
    + apply bindFeatureServices_throw in E as [(Hs & _) _].
      by apply (versions_coercible_same (registry caller)).
  - destruct (held caller !! n) as [binding|]; [|done].
    destruct (decide (closure_unbound (unbindFeatureServices binding)
                      ∈ unboundCells (registry caller))) as [Hdone|Hlive].
    + by rewrite call_unbind_again.
    + destruct (call_unbind_ok _ _ Hlive) as (s' & -> & Hs & _).
      by apply (versions_coercible_same (registry caller)).
Qed.

(** X1: whatever is called on a new registry, every version key of
    every registered provider can be coerced, as [bindFeatureService]
    takes for granted. *)
Theorem stored_versions_coercible configs w calls :
  versions_coercible (registry (api_calls calls (newCaller configs w))).
Proof.
  assert (Hgen : forall caller,
    versions_coercible (registry caller) ->
    versions_coercible (registry (api_calls calls caller))).
  { induction calls as [|call calls IH]; intros caller Hinv; [done|].
    cbn. apply IH. by apply api_call_versions. }
  apply Hgen. intros providerId shared. cbn. by rewrite lookup_empty.
Qed.
End StoredVersions.

Section BindingOutcome.
Context `{Imports}.
Implicit Types (s : FeatureServiceRegistry) (optional : bool).

Lemma find_version_Some supportedVersions range version :
  find_version supportedVersions range = Some version ->
  version ∈ supportedVersions /\ satisfies (coerce version) range = true.
Proof.
  intros (earlier & later & -> & Hsat & _)%find_first. split; [|done].
  apply elem_of_app. right. by left.
Qed.

Lemma find_binder_Some (shared : SharedFeatureService) version binder :
  find_binder shared version = Some binder ->
  exists v, version = Some v /\ obj_get v shared = Some (Some binder).
Proof.
  unfold find_binder, truthy. destruct version as [v|]; [|done].
  destruct (decide (v = "")); [done|].
  destruct (obj_get v shared) as [[binder'|]|] eqn:E; [|done..].
  cbn. intros [= ->]. eauto.
Qed.

(** The events of resolving one dependency. *)
Lemma bindFeatureService_calls
    providerId consumerUid range optional s r s' requested :
  requested providerId = range ->
  bindFeatureService providerId consumerUid range optional s = (r, s') ->
  exists events,
    trace s' = trace s ++ events
    /\ Forall (satisfying_call (sharedFeatureServices s) requested consumerUid)
              events.
Proof.
  intros Hrequested. unfold bindFeatureService.
  assert (Hskip : forall m r s',
    skip_or_throw optional m s = (r, s') ->
    exists events,
      trace s' = trace s ++ events
      /\ Forall (satisfying_call (sharedFeatureServices s) requested consumerUid)
                events).
  { intros m r0 s0. destruct optional; intros [= <- <-].
    - exists [ConsoleInfo m]. split; [done|]. by repeat constructor.
    - exists []. by rewrite app_nil_r. }
  destruct (truthy range) as [range'|] eqn:Hr; [|apply Hskip].
  unfold bind, this. cbn beta iota.
  destruct (sharedFeatureServices s !! providerId) as [shared|] eqn:Hp;
    [|apply Hskip].
  destruct (find_binder shared _) as [binder|] eqn:Hb; [|apply Hskip].
  apply find_binder_Some in Hb as (version & Hv & _). rewrite Hv.
  apply find_version_Some in Hv as [Hin Hsat].
  unfold emit, external, ret. cbn beta iota. cbn [world add_event default].
  destruct (binder consumerUid (world s)) as [[binding|e] w]; intros [= <- <-].
  all: exists [CalledBinder providerId version consumerUid]; split; [done|].
  all: repeat constructor; cbn; rewrite Hrequested; eauto 10.
Qed.

Lemma bindAll_calls deps allDeps consumerUid providerIds bindings fs s r s' :
  bindAll deps allDeps consumerUid providerIds bindings fs s = (r, s') ->
  exists events,
    trace s' = trace s ++ events
    /\ Forall (satisfying_call (sharedFeatureServices s)
                 (fun providerId => mjoin (obj_get providerId allDeps))
                 consumerUid) events.
Proof.
  revert bindings fs s.
  induction providerIds as [|providerId rest IH]; intros bindings fs s; simpl.
  - intros [= <- <-]. exists []. by rewrite app_nil_r.
  - unfold bind at 1.
    destruct (bindFeatureService _ _ _ _ s) as [[[binding|]|e] s1] eqn:E.
    + pose proof E as [(Hs & _) _]%bindFeatureService_only_events.
      apply (bindFeatureService_calls _ _ _ _ _ _ _
               (fun providerId => mjoin (obj_get providerId allDeps)) eq_refl)
        in E as (ev1 & Ht1 & He1).
      unfold bind, console_info, emit. cbn beta iota.
      intros (ev2 & Ht2 & He2)%IH. cbn in Ht2, He2. rewrite Hs in He2.
      exists (ev1 ++ ConsoleInfo (featureServiceSuccessfullyBound providerId consumerUid)
                  :: ev2).
      rewrite Ht2, Ht1, <- !app_assoc. split; [done|].
      apply Forall_app. split; [done|]. by constructor.
    + pose proof E as [(Hs & _) _]%bindFeatureService_only_events.
      apply (bindFeatureService_calls _ _ _ _ _ _ _
               (fun providerId => mjoin (obj_get providerId allDeps)) eq_refl)
        in E as (ev1 & Ht1 & He1).
      intros (ev2 & Ht2 & He2)%IH. rewrite Hs in He2.
      exists (ev1 ++ ev2). rewrite Ht2, Ht1, <- !app_assoc. split; [done|].
      by apply Forall_app.
    + intros [= <- <-].
      by apply (bindFeatureService_calls _ _ _ _ _ _ _
                  (fun providerId => mjoin (obj_get providerId allDeps)) eq_refl)
        in E.
Qed.

(** X2: every binder that [bindFeatureServices] calls, whether the bind
    returns or throws, is called with the uid of the consumer, for a
    version that is a key of the registered provider and satisfies the
    range the consumer declared for it. *)
Theorem only_satisfying_versions_bound consumerDefinition specifier s r s' :
  bindFeatureServices consumerDefinition specifier s = (r, s') ->
  let allDeps :=
    spread (default [] (optionalDependencies consumerDefinition))
           (default [] (dependencies consumerDefinition)) in
  exists events,
    trace s' = trace s ++ events
    /\ Forall (satisfying_call (sharedFeatureServices s)
                 (fun providerId => mjoin (obj_get providerId allDeps))
                 (createUid (id consumerDefinition) specifier)) events.
Proof.
  rewrite bindFeatureServices_unfold. intros Hrun allDeps.
  destruct (decide _).
  { injection Hrun as <- <-. exists []. by rewrite app_nil_r. }
  fold allDeps in Hrun.
  destruct (bindAll _ _ _ _ _ _ s) as [[[bindings fs]|e] s1] eqn:E;
    apply bindAll_calls in E; by injection Hrun as <- <-.
Qed.

(** The object handed to the consumer and the bindings recorded for the
    teardown are filled together. *)
Lemma bindAll_agree deps allDeps consumerUid providerIds bindings fs s
    bindings' fs' s' :
  bindAll deps allDeps consumerUid providerIds bindings fs s
  = (Ok (bindings', fs'), s') ->
  (forall providerId,
     obj_get providerId fs = featureService <$> map_get providerId bindings) ->
  (forall providerId,
     obj_get providerId fs' = featureService <$> map_get providerId bindings')
  /\ (forall providerId,
        is_Some (obj_get providerId fs') ->
        is_Some (obj_get providerId fs) \/ providerId ∈ providerIds).
Proof.
  revert bindings fs s.
  induction providerIds as [|k rest IH]; intros bindings fs s; simpl.
  - intros [= <- <- <-] Hagree. auto.
  - unfold bind at 1.
    destruct (bindFeatureService k _ _ _ s) as [[[binding|]|e] s1]; [| |done].
    + unfold bind, console_info, emit. cbn beta iota.
      intros Hrest Hagree. apply IH in Hrest as [Hagree' Hkeys].
      * split; [done|]. intros providerId Hsome.
        destruct (Hkeys _ Hsome) as [Hold|Hin]; [|right; by right].
        rewrite obj_get_set in Hold.
        destruct (decide (providerId = k)) as [->|]; [right; by left | by left].
      * intros providerId. unfold map_get, map_set. rewrite !obj_get_set.
        destruct (decide (providerId = k)); [done | apply Hagree].
    + intros Hrest Hagree. apply IH in Hrest as [Hagree' Hkeys]; [|done].
      split; [done|]. intros providerId Hsome.
      destruct (Hkeys _ Hsome) as [Hold|Hin]; [by left | right; by right].
Qed.

(** X3: what a successful bind hands to the consumer under an id is the
    Feature Service of the binding it recorded for that id, the one whose
    [unbind] callback the teardown will call; and it hands over nothing
    under an id that is neither a dependency nor an optional dependency. *)
Theorem featureServices_are_the_bindings
    consumerDefinition specifier s binding s' :
  bindFeatureServices consumerDefinition specifier s = (Ok binding, s') ->
  (forall providerId,
     obj_get providerId (featureServices binding)
     = featureService
       <$> map_get providerId (closure_bindings (unbindFeatureServices binding)))
  /\ (forall providerId,
        is_Some (obj_get providerId (featureServices binding)) ->
        hasOwnProperty providerId
          (default [] (dependencies consumerDefinition)) = true
        \/ hasOwnProperty providerId
             (default [] (optionalDependencies consumerDefinition)) = true).
Proof.
  rewrite bindFeatureServices_unfold. destruct (decide _); [done|].
  destruct (bindAll _ _ _ _ _ _ s) as [[[bindings fs]|e] s1] eqn:E; [|done].
  intros [= <- <-]. cbn.
  apply bindAll_agree in E as [Hagree Hkeys]; [|done].
  split; [done|]. intros providerId Hsome.
  destruct (Hkeys _ Hsome) as [[? [=]]|Hin].
  apply elem_of_Object_keys in Hin. rewrite obj_get_spread in Hin.
  rewrite !hasOwnProperty_true.
  destruct (obj_get providerId (default [] (dependencies consumerDefinition)));
    [left; eauto | by right].
Qed.
End BindingOutcome.

Section BindingSuccess.
Context `{Imports}.
Implicit Types (s : FeatureServiceRegistry) (optional : bool).

(** With binders that return, resolving a dependency throws only for a
    required dependency that cannot be resolved. *)
Lemma bindFeatureService_returns providerId consumerUid range optional s :
  binders_return (sharedFeatureServices s) ->
  optional = true \/ resolves (sharedFeatureServices s) providerId range ->
  exists binding s',
    bindFeatureService providerId consumerUid range optional s
    = (Ok binding, s')
    /\ (resolves (sharedFeatureServices s) providerId range -> is_Some binding).
Proof.
  intros Hreturn Hcase. unfold bindFeatureService.
  assert (Hskip : forall m,
    ~ resolves (sharedFeatureServices s) providerId range ->
    exists binding s',
      skip_or_throw optional m s = (Ok binding, s')
      /\ (resolves (sharedFeatureServices s) providerId range -> is_Some binding)).
  { intros m Hnot. destruct Hcase as [->|?]; [|done].
    eexists _, _. split; [done|]. by intros ?. }
  destruct (truthy range) as [range'|] eqn:Hr.
  2:{ apply Hskip. intros (? & ? & ? & ? & _). congruence. }
  unfold bind, this. cbn beta iota.
  destruct (sharedFeatureServices s !! providerId) as [shared|] eqn:Hp.
  2:{ apply Hskip. intros (? & ? & ? & _ & Hp' & _).
      pose proof (eq_trans (eq_sym Hp) Hp') as Hc. discriminate Hc. }
  destruct (find_binder shared _) as [binder|] eqn:Hb.
  2:{ apply Hskip. intros (r & shared' & binder & Hr' & Hp' & Hb').
      assert (r = range') as -> by congruence.
      pose proof (eq_trans (eq_sym Hp) Hp') as Hc. injection Hc as <-.
      congruence. }
  pose proof Hb as (version & _ & Hget)%find_binder_Some.
  destruct (Hreturn _ _ _ _ Hp Hget consumerUid (world s)) as (binding & w' & Hrun).
  unfold emit, external, ret. cbn beta iota. cbn [world add_event].
  rewrite Hrun. eexists _, _. split; [done|]. eauto.
Qed.

Lemma bindAll_returns deps allDeps consumerUid providerIds bindings fs s :
  binders_return (sharedFeatureServices s) ->
  (forall providerId,
     providerId ∈ providerIds ->
     hasOwnProperty providerId deps = true ->
     resolves (sharedFeatureServices s) providerId
       (mjoin (obj_get providerId allDeps))) ->
  exists bindings' fs' s',
    bindAll deps allDeps consumerUid providerIds bindings fs s
    = (Ok (bindings', fs'), s')
    /\ (forall providerId,
          is_Some (obj_get providerId fs)
          \/ (providerId ∈ providerIds /\ hasOwnProperty providerId deps = true) ->
          is_Some (obj_get providerId fs')).
Proof.
  revert bindings fs s.
  induction providerIds as [|k rest IH]; intros bindings fs s Hreturn Hresolves.
  { eexists _, _, _. split; [done|]. intros providerId [?|[?%elem_of_nil _]]; done. }
  cbn [bindAll]. unfold bind at 1.
  destruct (bindFeatureService_returns k consumerUid
              (mjoin (obj_get k allDeps)) (negb (hasOwnProperty k deps)) s Hreturn)
    as (binding & s1 & Hrun & Hsome).
  { destruct (hasOwnProperty k deps) eqn:Hreq; [right|by left].
    apply Hresolves; [by left | done]. }
  rewrite Hrun.
  pose proof Hrun as [(Hs & _) _]%bindFeatureService_only_events.
  destruct binding as [binding|].
  - unfold bind, console_info, emit. cbn beta iota.
    destruct (IH (map_set k binding bindings)
                 (obj_set k (featureService binding) fs)
                 (add_event
                    (ConsoleInfo (featureServiceSuccessfullyBound k consumerUid))
                    s1))
      as (bindings' & fs' & s' & Hrest & Hkeys).
    { cbn. by rewrite Hs. }
    { cbn. rewrite Hs. intros providerId Hin. apply Hresolves. by right. }
    eexists _, _, _. split; [exact Hrest|].
    intros providerId Hcase. apply Hkeys. rewrite obj_get_set.
    destruct (decide (providerId = k)) as [->|Hne]; [left; eauto|].
    destruct Hcase as [?|[[->|?]%elem_of_cons ?]]; [by left | done | by right].
  - destruct (IH bindings fs s1) as (bindings' & fs' & s' & Hrest & Hkeys).
    { by rewrite Hs. }
    { rewrite Hs. intros providerId Hin. apply Hresolves. by right. }
    eexists _, _, _. split; [exact Hrest|].
    intros providerId Hcase. apply Hkeys.
    destruct Hcase as [?|[[->|?]%elem_of_cons Hreq]]; [by left | | by right].
    exfalso. destruct Hsome as [? [=]].
    apply Hresolves; [by left | done].
Qed.

(** X4: when the uid is free, every required dependency resolves and no
    registered binder throws, [bindFeatureServices] returns, and every
    required dependency is in the Feature Services it hands over;
    optional dependencies never make it throw. *)
Theorem bind_succeeds_when_required_resolve consumerDefinition specifier s :
  let deps := default [] (dependencies consumerDefinition) in
  createUid (id consumerDefinition) specifier ∉ consumerUids s ->
  binders_return (sharedFeatureServices s) ->
  (forall providerId,
     hasOwnProperty providerId deps = true ->
     resolves (sharedFeatureServices s) providerId
       (mjoin (obj_get providerId deps))) ->
  exists binding s',
    bindFeatureServices consumerDefinition specifier s = (Ok binding, s')
    /\ (forall providerId,
          hasOwnProperty providerId deps = true ->
          is_Some (obj_get providerId (featureServices binding))).
Proof.
  intros deps Hfree Hreturn Hresolves. rewrite bindFeatureServices_unfold.
  rewrite decide_False by done. fold deps.
  set (allDeps := spread _ deps).
  assert (Hget : forall providerId,
    hasOwnProperty providerId deps = true ->
    obj_get providerId allDeps = obj_get providerId deps).
  { intros providerId [v Hv]%hasOwnProperty_true. unfold allDeps.
    by rewrite obj_get_spread, Hv. }
  destruct (bindAll_returns deps allDeps
              (createUid (id consumerDefinition) specifier)
              (Object_keys allDeps) [] [] s Hreturn)
    as (bindings & fs & s1 & -> & Hkeys).
  { intros providerId _ Hreq. rewrite Hget by done. by apply Hresolves. }
  eexists _, _. split; [done|]. cbn. intros providerId Hreq.
  apply Hkeys. right. split; [|done].
  apply elem_of_Object_keys. rewrite Hget by done. by apply hasOwnProperty_true.
Qed.

(** X5: binding a consumer and calling the [unbind] it was given leaves
    the set of active uids and the registered providers as they were. *)
Theorem bind_then_unbind_restores consumerDefinition specifier s binding s1 :
  bindFeatureServices consumerDefinition specifier s = (Ok binding, s1) ->
  exists s2,
    call_unbind (unbindFeatureServices binding) s1 = (Ok tt, s2)
    /\ consumerUids s2 = consumerUids s
    /\ sharedFeatureServices s2 = sharedFeatureServices s.
Proof.
  intros (Hfree & Huid & Hcell & Hs & _ & Hu & Hcells & _)%bindFeatureServices_ok.
  destruct (call_unbind_ok (unbindFeatureServices binding) s1)
    as (s2 & Hrun & Hs2 & _ & Hu2 & _).
  { rewrite Hcells, Hcell, elem_of_difference, elem_of_singleton. tauto. }
  exists s2. split; [done|]. split; [|congruence].
  rewrite Hu2, Hu, Huid. clear - Hfree.
  apply set_eq. intros uid.
  rewrite elem_of_difference, elem_of_union, elem_of_singleton.
  split; [tauto|]. intros Hin. split; [by right|]. by intros ->.
Qed.
End BindingSuccess.

Section RegistrationOutcome.
Context `{Imports}.
Implicit Types (s : FeatureServiceRegistry).

(** X6: a provider that was bound as a consumer but whose registration
    then threw (its [create] threw, or it exposed a version that cannot be
    coerced) is not registered, and its uid stays in the active set:
    registering that id again throws the duplicate-bind error. *)
Theorem failed_registration_blocks_retry
    byId consumerId providerId s
    (definition : FeatureServiceProviderDefinition) binding s1 e s' :
  sharedFeatureServices s !! providerId = None ->
  map_get providerId byId = Some definition ->
  id definition = providerId ->
  bindFeatureServices definition None s = (Ok binding, s1) ->
  registerFeatureService byId consumerId providerId s = (Throw e, s') ->
  sharedFeatureServices s' !! providerId = None
  /\ createUid providerId None ∈ consumerUids s'
  /\ (forall byId' consumerId'
             (definition' : FeatureServiceProviderDefinition),
        map_get providerId byId' = Some definition' ->
        id definition' = providerId ->
        registerFeatureService byId' consumerId' providerId s'
        = (Throw (Error (featureServicesAlreadyBound (createUid providerId None))),
           s')).
Proof.
  intros Hp Hd Hid Hb. rewrite (registerFeatureService_new _ _ _ _ _ Hp Hd), Hb.
  apply bindFeatureServices_ok in Hb as (_ & _ & _ & Hs & _ & Hu & _).
  rewrite Hid in Hu. cbn zeta.
  assert (Hafter : forall w2,
    let s2 := with_world w2 (add_event (CalledCreate providerId) s1) in
    sharedFeatureServices s2 !! providerId = None
    /\ createUid providerId None ∈ consumerUids s2
    /\ (forall byId' consumerId'
               (definition' : FeatureServiceProviderDefinition),
          map_get providerId byId' = Some definition' ->
          id definition' = providerId ->
          registerFeatureService byId' consumerId' providerId s2
          = (Throw (Error (featureServicesAlreadyBound (createUid providerId None))),
             s2))).
  { intros w2 s2.
    assert (Hp2 : sharedFeatureServices s2 !! providerId = None)
      by (cbn; by rewrite Hs).
    assert (Hin : createUid providerId None ∈ consumerUids s2).
    { cbn. rewrite Hu. apply elem_of_union_l. by apply elem_of_singleton. }
    split; [done|]. split; [done|].
    intros byId' consumerId' definition' Hd' Hid'.
    rewrite (registerFeatureService_new _ _ _ _ _ Hp2 Hd').
    rewrite bindFeatureServices_already_bound; rewrite Hid'; done. }
  match goal with
  | |- context [create definition ?env (world s1)] =>
      destruct (create definition env (world s1)) as [[shared|e'] w2]
  end.
  - destruct (decide _); [done|]. intros [= <- <-]. apply Hafter.
  - intros [= <- <-]. apply Hafter.
Qed.

(** X7: the ids of the registration order that the batch does not
    define are passed over: nothing is registered, warned or thrown for
    them. *)
Theorem undefined_ids_are_ignored byId consumerId providerIds s :
  registerAll byId consumerId providerIds s
  = registerAll byId consumerId
      (filter (fun providerId => map_has providerId byId = true) providerIds) s.
Proof.
  revert s. induction providerIds as [|providerId rest IH]; intros s; [done|].
  destruct (map_has providerId byId) eqn:Hhas.
  - rewrite filter_cons_True by done. cbn [registerAll]. unfold bind.
    destruct (registerFeatureService _ _ _ s) as [[[]|e] s1]; [apply IH | done].
  - rewrite filter_cons_False by (by rewrite Hhas).
    cbn [registerAll]. unfold bind at 1.
    assert (Hskip : registerFeatureService byId consumerId providerId s = (Ok tt, s)).
    { destruct (sharedFeatureServices s !! providerId) as [shared|] eqn:Hp.
      - by rewrite (registerFeatureService_registered _ _ _ _ _ Hp), Hhas.
      - apply registerFeatureService_unknown; [done|].
        unfold map_has in Hhas. apply bool_decide_eq_false in Hhas.
        unfold map_get. destruct (obj_get providerId byId); [|done].
        exfalso. eauto. }
    rewrite Hskip. apply IH.
Qed.

(** X8: a provider with a required dependency that cannot be resolved
    is not registered: the registration throws, its [create] is not
    called, and the collections of the registry are left as they were. *)
Theorem unresolved_provider_not_registered
    byId consumerId providerId s
    (definition : FeatureServiceProviderDefinition) dependency msg :
  sharedFeatureServices s !! providerId = None ->
  map_get providerId byId = Some definition ->
  hasOwnProperty dependency (default [] (dependencies definition)) = true ->
  Unresolved (sharedFeatureServices s) dependency
    (mjoin (obj_get dependency (default [] (dependencies definition)))) msg ->
  exists e s',
    registerFeatureService byId consumerId providerId s = (Throw e, s')
    /\ same_collections s s'
    /\ exists events,
         trace s' = trace s ++ events
         /\ Forall (fun event => forall p, is_CalledCreate p event = false)
                   events.
Proof.
  intros Hp Hd Hreq Hun. rewrite (registerFeatureService_new _ _ _ _ _ Hp Hd).
  destruct (required_unresolved_throws definition None s dependency msg Hreq Hun)
    as (e & s' & Hthrow).
  rewrite Hthrow. exists e, s'. split; [done|].
  apply bindFeatureServices_throw in Hthrow as [Hsame (events & Ht & He)].
  split; [done|]. exists events. split; [done|].
  apply Forall_forall. intros event Hin. rewrite forallb_forall in He.
  apply binding_event_registration, He. by apply list_elem_of_In.
Qed.

(** X9: whatever its outcome, [registerFeatureServices] keeps every
    active consumer uid, leaves every [unbound] flag allocated before
    the call as it was, and calls no [unbind] callback. *)
Theorem registration_unbinds_nothing providerDefinitions consumerId s r s' :
  registerFeatureServices providerDefinitions consumerId s = (r, s') ->
  consumerUids s ⊆ consumerUids s'
  /\ (forall cell, cell < nextCell s ->
        cell ∈ unboundCells s' <-> cell ∈ unboundCells s)
  /\ exists events,
       trace s' = trace s ++ events
       /\ Forall (fun event => is_CalledUnbind event = false) events.
Proof.
  intros (_ & Hgrow & _ & _ & Hflags & _ & events & Ht & He)%registerFeatureServices_step.
  split; [done|]. split; [done|]. exists events. split; [done|].
  eapply Forall_impl; [exact He|]. by intros event [? _].
Qed.
End RegistrationOutcome.

Section Batches.
Context `{Imports}.

Lemma find_app {A} (f : A -> bool) (l1 l2 : list A) :
  List.find f (l1 ++ l2)
  = match List.find f l1 with
    | Some x => Some x
    | None => List.find f l2
    end.
Proof.
  induction l1 as [|x l1 IH]; [done|]. simpl. by destruct (f x).
Qed.

Lemma createProviderDefinitionById_from
    (providerDefinitions : list FeatureServiceProviderDefinition)
    (byId : ProviderDefinitionsById) providerId :
  map_get providerId
    (foldl (fun byId (definition : FeatureServiceProviderDefinition) =>
              map_set (id definition) definition byId)
           byId providerDefinitions)
  = match last_definition providerId providerDefinitions with
    | Some definition => Some definition
    | None => map_get providerId byId
    end.
Proof.
  revert byId. unfold last_definition.
  induction providerDefinitions as [|definition rest IH]; intros byId; [done|].
  cbn [foldl]. rewrite IH, reverse_cons, find_app.
  destruct (List.find _ (reverse rest)); [done|]. cbn [List.find].
  unfold map_get, map_set. rewrite obj_get_set.
  destruct (decide (providerId = id definition)) as [->|Hne].
  - by rewrite bool_decide_eq_true_2.
  - by rewrite bool_decide_eq_false_2.
Qed.

(** X10: when a batch gives several definitions for one id, the last of
    them is the one looked up, hence the one registered; an id the batch
    does not define is not found. *)
Theorem last_definition_wins
    (providerDefinitions : list FeatureServiceProviderDefinition) providerId :
  map_get providerId (createProviderDefinitionById providerDefinitions)
  = last_definition providerId providerDefinitions.
Proof.
  unfold createProviderDefinitionById.
  rewrite createProviderDefinitionById_from.
  by destruct (last_definition _ _).
Qed.

Lemma createDependencyGraph_from
    (providerDefinitions : list FeatureServiceProviderDefinition)
    (graph : DependencyGraph) providerId :
  map_get providerId
    (foldl (fun graph (definition : FeatureServiceProviderDefinition) =>
              map_set (id definition)
                (spread (default [] (dependencies definition))
                        (default [] (optionalDependencies definition)))
                graph)
           graph providerDefinitions)
  = match last_definition providerId providerDefinitions with
    | Some definition =>
        Some (spread (default [] (dependencies definition))
                     (default [] (optionalDependencies definition)))
    | None => map_get providerId graph
    end.
Proof.
  revert graph. unfold last_definition.
  induction providerDefinitions as [|definition rest IH]; intros graph; [done|].
  cbn [foldl]. rewrite IH, reverse_cons, find_app.
  destruct (List.find _ (reverse rest)); [done|]. cbn [List.find].
  unfold map_get, map_set. rewrite obj_get_set.
  destruct (decide (providerId = id definition)) as [->|Hne].
  - by rewrite bool_decide_eq_true_2.
  - by rewrite bool_decide_eq_false_2.
Qed.

Lemma elem_of_Object_keys_spread {A} (a b : JsObject A) k :
  k ∈ Object_keys (spread a b)
  <-> hasOwnProperty k a = true \/ hasOwnProperty k b = true.
Proof.
  rewrite elem_of_Object_keys, obj_get_spread, !hasOwnProperty_true.
  destruct (obj_get k b); [|destruct (obj_get k a)].
  - split; [right|]; eauto.
  - split; [left|]; eauto.
  - split; [by intros [? ?] | by intros [[? ?]|[? ?]]].
Qed.

(** X11: the dependency graph has one node per id of the batch, that of
    the last definition with this id, and the edges of a node are the ids
    of the dependencies and of the optional dependencies of that
    definition. *)
Theorem dependency_graph_of_batch
    (providerDefinitions : list FeatureServiceProviderDefinition) providerId :
  match last_definition providerId providerDefinitions with
  | Some definition =>
      exists edges,
        map_get providerId (createDependencyGraph providerDefinitions)
        = Some edges
        /\ forall dependency,
             dependency ∈ Object_keys edges
             <-> hasOwnProperty dependency
                   (default [] (dependencies definition)) = true
                 \/ hasOwnProperty dependency
                      (default [] (optionalDependencies definition)) = true
  | None =>
      map_get providerId (createDependencyGraph providerDefinitions) = None
  end.
Proof.
  unfold createDependencyGraph. rewrite createDependencyGraph_from.
  destruct (last_definition _ _) as [definition|]; [|done].
  eexists. split; [done|]. intros dependency.
  apply elem_of_Object_keys_spread.
Qed.
End Batches.

Section LiveBindings.
Context `{Imports}.

(** X12: whatever was called on a new registry, a binding the caller
    holds and has not unbound keeps its uid in the active set, so that
    binding this uid throws; no other binding it holds and has not
    unbound has the same uid; and its [unbind] goes through, removing
    the uid. *)
Theorem live_binding_reserves_uid configs w calls n binding :
  let caller := api_calls calls (newCaller configs w) in
  held caller !! n = Some binding ->
  ~ unbound_in (registry caller) binding ->
  uid_of binding ∈ consumerUids (registry caller)
  /\ (forall definition specifier,
        createUid (id definition) specifier = uid_of binding ->
        bindFeatureServices definition specifier (registry caller)
        = (Throw (Error (featureServicesAlreadyBound (uid_of binding))),
           registry caller))
  /\ (forall m binding',
        m <> n -> held caller !! m = Some binding' ->
        ~ unbound_in (registry caller) binding' ->
        uid_of binding' <> uid_of binding)
  /\ exists s',
       call_unbind (unbindFeatureServices binding) (registry caller) = (Ok tt, s')
       /\ uid_of binding ∉ consumerUids s'.
Proof.
  intros caller Hheld Hlive.
  assert (Hinv : caller_invariant caller)
    by apply api_calls_invariant, newCaller_invariant.
  assert (Hin : uid_of binding ∈ consumerUids (registry caller)).
  { apply (held_active _ Hinv); [|done]. by eapply list_elem_of_lookup_2. }
  split; [done|]. split; [|split].
  - intros definition specifier Heq. rewrite <- Heq in Hin |- *.
    by apply bindFeatureServices_already_bound.
  - intros m binding' Hmn Hheld' Hlive'.
    by apply (held_distinct _ Hinv m n).
  - destruct (call_unbind_ok _ _ Hlive) as (s' & Hrun & _ & _ & Hu & _).
    exists s'. split; [done|]. rewrite Hu. unfold uid_of.
    rewrite elem_of_difference, elem_of_singleton. tauto.
Qed.
End LiveBindings.

Section RegistrationSuccess.
Context `{Imports}.
Implicit Types (s : FeatureServiceRegistry).

End RegistrationSuccess.

Section BindingOrder.
Context `{Imports}.









End BindingOrder.

(** ** More concrete runs *)
Section MoreConcrete.
#[local] Existing Instance node.

Lemma only_satisfying_versions_bound_witness :
  let s := Samples.registryWith "good" Samples.v1_then_v2 in
  let app := Samples.consumer "app" (Some [("good", Some "^2.0")]) None in
  exists s' events,
    trace s' = trace s ++ events
    /\ CalledBinder "good" "2.0.0" "app" ∈ events
    /\ Forall (satisfying_call (sharedFeatureServices s)
                 (fun providerId =>
                    mjoin (obj_get providerId [("good", Some "^2.0")]))
                 "app") events.
Proof.
  intros s app.
  let bound := eval vm_compute in (bindFeatureServices app None s) in
  match bound with
  | (?r0, ?s0) => pose (r := r0); pose (s' := s0)
  end.
  destruct (only_satisfying_versions_bound app None s r s' eq_refl)
    as (events & Htrace & Hcalls).
  exists s', events. split; [exact Htrace|]. split; [|exact Hcalls].
  assert (Hevents :
    events = [CalledBinder "good" "2.0.0" "app";
              ConsoleInfo (featureServiceSuccessfullyBound "good" "app")]).
  { change (trace s') with ([] ++ [CalledBinder "good" "2.0.0" "app";
              ConsoleInfo (featureServiceSuccessfullyBound "good" "app")])
      in Htrace.
    by apply app_inv_head in Htrace. }
  rewrite Hevents. by left.
Defined.

Lemma featureServices_are_the_bindings_witness :
  let s := Samples.registryWith "good" Samples.v1_then_v2 in
  let app := Samples.consumer "app" (Some [("good", Some "^2.0")]) None in
  exists binding s',
    bindFeatureServices app None s = (Ok binding, s')
    /\ obj_get "good" (featureServices binding) = Some "v2"
    /\ featureService
       <$> map_get "good" (closure_bindings (unbindFeatureServices binding))
       = Some "v2".
Proof.
  intros s app.
  let bound := eval vm_compute in (bindFeatureServices app None s) in
  match bound with
  | (Ok ?b, ?s0) => pose (binding := b); pose (s' := s0)
  end.
  destruct (featureServices_are_the_bindings app None s binding s' eq_refl)
    as [Hagree _].
  exists binding, s'. split; [reflexivity|]. split; [reflexivity|].
  rewrite <- Hagree. reflexivity.
Defined.

Lemma bind_succeeds_when_required_resolve_witness :
  let s := Samples.registryWith "good" Samples.v1_then_v2 in
  let app :=
    Samples.consumer "app" (Some [("good", Some "^1.0")])
                           (Some [("missing", Some "^1.0")]) in
  exists binding s',
    bindFeatureServices app None s = (Ok binding, s')
    /\ is_Some (obj_get "good" (featureServices binding)).
Proof.
  intros s app.
  destruct (bind_succeeds_when_required_resolve app None s)
    as (binding & s' & Hrun & Hrequired).
  - apply not_elem_of_empty.
  - intros providerId shared version binder Hp Hget consumerUid w.
    unfold s, Samples.registryWith in Hp.
    cbn [sharedFeatureServices with_sharedFeatureServices] in Hp.
    apply lookup_singleton_Some in Hp as [<- <-].
    cbn in Hget. repeat case_decide; simplify_eq; eauto.
  - intros providerId Hreq. apply hasOwnProperty_true in Hreq.
    cbn in Hreq. case_decide; [|by destruct Hreq]. subst providerId.
    exists "^1.0", Samples.v1_then_v2, (Samples.binderOf "v1").
    split; [reflexivity|]. split; reflexivity.
  - exists binding, s'. split; [exact Hrun|]. by apply Hrequired.
Defined.

Lemma bind_then_unbind_restores_witness :
  let s := (registerFeatureServices [Samples.good] "integrator" Samples.empty).2 in
  let app := Samples.consumer "app" (Some [("good", Some "^1.0")]) None in
  exists binding s1 s2,
    bindFeatureServices app None s = (Ok binding, s1)
    /\ call_unbind (unbindFeatureServices binding) s1 = (Ok tt, s2)
    /\ consumerUids s2 = consumerUids s.
Proof.
  intros s app.
  let bound := eval vm_compute in (bindFeatureServices app None s) in
  match bound with
  | (Ok ?b, ?s0) => pose (binding := b); pose (s1 := s0)
  end.
  destruct (bind_then_unbind_restores app None s binding s1 eq_refl)
    as (s2 & Hunbind & Huids & _).
  exists binding, s1, s2. split; [reflexivity|]. by split.
Defined.

Lemma failed_registration_blocks_retry_witness :
  let s := (registerFeatureServices [Samples.good] "integrator" Samples.empty).2 in
  let byId := createProviderDefinitionById [Samples.bad] in
  exists s',
    registerFeatureService byId "integrator" "bad" s
    = (Throw (Error (featureServiceVersionInvalid "bad" "integrator")), s')
    /\ registerFeatureService byId "integrator" "bad" s'
       = (Throw (Error (featureServicesAlreadyBound "bad")), s').
Proof.
  intros s byId.
  let bound := eval vm_compute in (bindFeatureServices Samples.bad None s) in
  match bound with
  | (Ok ?b, ?s0) => pose (binding := b); pose (s1 := s0)
  end.
  let failed := eval vm_compute in (registerFeatureService byId "integrator" "bad" s) in
  match failed with
  | (_, ?s0) => pose (s' := s0)
  end.
  assert (Hfailed :
    registerFeatureService byId "integrator" "bad" s
    = (Throw (Error (featureServiceVersionInvalid "bad" "integrator")), s'))
    by reflexivity.
  destruct (failed_registration_blocks_retry byId "integrator" "bad" s
              Samples.bad binding s1 _ s' eq_refl eq_refl eq_refl eq_refl Hfailed)
    as (_ & _ & Hretry).
  exists s'. split; [exact Hfailed|].
  exact (Hretry byId "integrator" Samples.bad eq_refl eq_refl).
Defined.

Lemma unresolved_provider_not_registered_witness :
  let byId := createProviderDefinitionById [Samples.bad] in
  exists s',
    registerFeatureService byId "integrator" "bad" Samples.empty
    = (Throw (Error (featureServiceNotRegistered false "good" "bad")), s')
    /\ sharedFeatureServices s' = sharedFeatureServices Samples.empty
    /\ consumerUids s' = consumerUids Samples.empty.
Proof.
  intros byId.
  assert (Hun :
    Unresolved (sharedFeatureServices Samples.empty) "good"
      (mjoin (obj_get "good" (default [] (dependencies Samples.bad))))
      (fun optional consumerUid =>
         featureServiceNotRegistered optional "good" consumerUid)).
  { by apply NoProviderRegistered with (range := "^1.0"). }
  destruct (unresolved_provider_not_registered byId "integrator" "bad"
              Samples.empty Samples.bad "good" _ eq_refl eq_refl eq_refl Hun)
    as (e & s' & Hthrow & (Hs & Hu & _) & _).
  exists s'. split; [|by split].
  rewrite Hthrow. f_equal.
  assert (Hrun : (registerFeatureService byId "integrator" "bad" Samples.empty).1
                 = Throw (Error (featureServiceNotRegistered false "good" "bad")))
    by reflexivity.
  by rewrite Hthrow in Hrun.
Defined.

Lemma registration_unbinds_nothing_witness :
  let s := (registerFeatureServices [Samples.good] "integrator" Samples.empty).2 in
  exists r s',
    registerFeatureServices [Samples.bad] "integrator" s = (r, s')
    /\ consumerUids s ⊆ consumerUids s'.
Proof.
  intros s.
  let run := eval vm_compute in (registerFeatureServices [Samples.bad] "integrator" s) in
  match run with
  | (?r0, ?s0) => pose (r := r0); pose (s' := s0)
  end.
  destruct (registration_unbinds_nothing [Samples.bad] "integrator" s r s' eq_refl)
    as (Hgrow & _).
  exists r, s'. by split.
Defined.

Lemma live_binding_reserves_uid_witness :
  let app := Samples.consumer "app" (Some [("good", Some "^1.0")]) None in
  let caller :=
    api_calls [Register [Samples.good] "integrator"; Bind app None]
      (newCaller None []) in
  bindFeatureServices app None (registry caller)
  = (Throw (Error (featureServicesAlreadyBound "app")), registry caller).
Proof.
  intros app caller.
  let first := eval vm_compute in (held caller !! 0) in
  match first with
  | Some ?b => pose (binding := b)
  end.
  destruct (live_binding_reserves_uid (H := node) None []
              [Register [Samples.good] "integrator"; Bind app None] 0 binding)
    as (_ & Hthrows & _).
  - reflexivity.
  - unfold unbound_in. intros Hin.
    assert (Hcells : unboundCells (registry caller) = ∅ ∖ {[0]} ∖ {[1]})
      by reflexivity.
    fold caller in Hin. rewrite Hcells in Hin.
    apply elem_of_difference in Hin as [Hin _].
    apply elem_of_difference in Hin as [Hin _].
    by apply not_elem_of_empty in Hin.
  - exact (Hthrows app None eq_refl).
Defined.

End MoreConcrete.
